(** * Bottender request dispatch: [Bot.ts]

    A shallow embedding of [packages/bottender/src/bot/Bot.ts]: the
    continuation engine [run], the session latch [initSessionStore] and the
    request handler built by [createRequestHandler], together with the part
    of the JavaScript object model the handler relies on (property
    attributes, [Object.defineProperty], assignment and [delete] on
    ordinary objects).

    Collaborators that live outside the file (the connector, the session
    store, the context class, plugins and dialog actions) are parameters of
    the model; every call the handler makes on them is recorded in a trace,
    which is the observable the theorems speak about.

    Asynchrony is modelled by turns: a piece of code between two [await]s
    is one atomic turn, and a schedule (a list of task indices) says whose
    turn comes next.  Statements quantified over all schedules therefore
    hold for every interleaving the event loop can produce. *)

From Stdlib Require Import ZArith Lia.
From stdpp Require Import base option list strings gmap.

Open Scope string_scope.
Open Scope list_scope.
Open Scope nat_scope.
Set Warnings "-register-all".

(** ** JavaScript values *)

Module JS.

(** The values that flow through the handler.  Numbers are integers (no
    claim depends on fractions or NaN); an object literal is the list of its
    own enumerable fields. *)
Inductive JSValue : Type :=
| JUndefined
| JNull
| JBool (b : bool)
| JNum (z : Z)
| JStr (s : string)
| JObj (fields : list (string * JSValue)).

(** [!v] is [negb (truthy v)]. *)
Definition truthy (v : JSValue) : bool :=
  match v with
  | JUndefined | JNull => false
  | JBool b => b
  | JNum z => negb (z =? 0)%Z
  | JStr s => negb (String.eqb s "")
  | JObj _ => true
  end.




(** [a || b] on values. *)
Definition or_else (a b : JSValue) : JSValue := if truthy a then a else b.

(** Structural comparison, used for the SameValue test of
    [Object.defineProperty]. *)
Fixpoint same_value (a b : JSValue) {struct a} : bool :=
  match a, b with
  | JUndefined, JUndefined => true
  | JNull, JNull => true
  | JBool x, JBool y => Bool.eqb x y
  | JNum x, JNum y => (x =? y)%Z
  | JStr x, JStr y => String.eqb x y
  | JObj xs, JObj ys =>
      (fix fields_eq (l : list (string * JSValue)) (r : list (string * JSValue)) : bool :=
         match l, r with
         | [], [] => true
         | (k, v) :: l', (k', v') :: r' =>
             String.eqb k k' && same_value v v' && fields_eq l' r'
         | _, _ => false
         end) xs ys
  | _, _ => false
  end.

(** Thrown values.  Anything can be thrown; the engine itself only throws
    [Error] and [TypeError] objects. *)
Definition Error := JSValue.

Definition mkError (name message : string) : Error :=
  JObj [("name", JStr name); ("message", JStr message)].

Definition typeError (message : string) : Error := mkError "TypeError" message.

(** *** Ordinary objects with property attributes *)

Record Property := mkProperty {
  value : JSValue;
  writable : bool;
  enumerable : bool;
  configurable : bool
}.

Record Obj := mkObj {
  props : gmap string Property;
  extensible : bool
}.

(** [Object.create(null)]. *)
Definition create_null : Obj := {| props := ∅; extensible := true |}.

(** A property created by plain assignment. *)
Definition plain (v : JSValue) : Property :=
  {| value := v; writable := true; enumerable := true; configurable := true |}.

(** [o.k] (own data properties; the prototype chain carries none of the
    keys the handler reads). *)
Definition get (o : Obj) (k : string) : JSValue :=
  match props o !! k with
  | Some p => value p
  | None => JUndefined
  end.

(** [o.k = v]: [None] when the assignment is refused (the property is not
    writable, or it is absent and the object is not extensible). *)
Definition set (o : Obj) (k : string) (v : JSValue) : option Obj :=
  match props o !! k with
  | Some p =>
      if writable p
      then Some {| props := <[k := {| value := v; writable := true;
                                      enumerable := enumerable p;
                                      configurable := configurable p |}]> (props o);
                   extensible := extensible o |}
      else None
  | None =>
      if extensible o
      then Some {| props := <[k := plain v]> (props o); extensible := true |}
      else None
  end.

(** [delete o.k]: refused on a non-configurable property. *)
Definition delete_prop (o : Obj) (k : string) : option Obj :=
  match props o !! k with
  | Some p =>
      if configurable p
      then Some {| props := delete k (props o); extensible := extensible o |}
      else None
  | None => Some o
  end.

(** A property descriptor as passed to [Object.defineProperty]; absent
    fields are [None]. *)
Record Descriptor := mkDescriptor {
  d_value : option JSValue;
  d_writable : option bool;
  d_enumerable : option bool;
  d_configurable : option bool
}.

(** The descriptor the handler uses to fix a field. *)
Definition fixed_descriptor (v : JSValue) : Descriptor :=
  {| d_value := Some v; d_writable := Some false;
     d_enumerable := Some true; d_configurable := Some false |}.

Definition opt_differs (requested : option bool) (current : bool) : bool :=
  match requested with
  | Some b => negb (Bool.eqb b current)
  | None => false
  end.

(** Whether ValidateAndApplyPropertyDescriptor accepts [d] over the
    existing data property [p]. *)
Definition define_allowed (p : Property) (d : Descriptor) : bool :=
  if configurable p then true
  else
    negb (from_option id false (d_configurable d))
    && negb (opt_differs (d_enumerable d) (enumerable p))
    && (if writable p then true
        else
          negb (from_option id false (d_writable d))
          && match d_value d with
             | Some v => same_value v (value p)
             | None => true
             end).

Definition apply_descriptor (p : Property) (d : Descriptor) : Property :=
  {| value := default (value p) (d_value d);
     writable := default (writable p) (d_writable d);
     enumerable := default (enumerable p) (d_enumerable d);
     configurable := default (configurable p) (d_configurable d) |}.

Definition absent_property : Property :=
  {| value := JUndefined; writable := false; enumerable := false;
     configurable := false |}.

(** [Object.defineProperty(o, k, d)]: [None] when it throws. *)
Definition define_property (o : Obj) (k : string) (d : Descriptor) : option Obj :=
  match props o !! k with
  | Some p =>
      if define_allowed p d
      then Some {| props := <[k := apply_descriptor p d]> (props o);
                   extensible := extensible o |}
      else None
  | None =>
      if extensible o
      then Some {| props := <[k := apply_descriptor absent_property d]> (props o);
                   extensible := true |}
      else None
  end.

(** A field is locked at [v] when it is a non-writable, non-configurable
    data property holding [v]. *)
Definition locked (o : Obj) (k : string) (v : JSValue) : Prop :=
  ∃ p, props o !! k = Some p ∧ value p = v
       ∧ writable p = false ∧ configurable p = false.

End JS.

Import JS.

(** ** Collaborator types *)

(** An event decoded by the connector. *)
Record Event := mkEvent { rawEvent : JSValue }.

Definition Body := JSValue.
Definition RequestContext := JSValue.

(** The first argument of [getUniqueSessionKey] and the second of
    [updateSession]: either the whole body or one event. *)
Inductive Payload :=
| WholeBody (b : Body)
| OneEvent (e : Event).

(** [Props]: an object literal; [{}] is the empty list. *)
Definition Props := list (string * JSValue).

(** The per-event context built by the connector: the fields [Bot.ts]
    touches.  [hasEndHook] tells whether the object carries a
    [handlerDidEnd] method; [session] is [None] for [undefined]. *)
Record Context := mkContext {
  event : Event;
  session : option Obj;
  response : JSValue;
  isSessionWritten : bool;
  hasEndHook : bool
}.

(** What user code (connector update, plugin, action, hook) may attempt on
    a context. *)
Inductive ObjOp :=
| Assign (k : string) (v : JSValue)              (* o[k] = v *)
| Define (k : string) (d : Descriptor)           (* Object.defineProperty(o, k, d) *)
| Delete (k : string).                           (* delete o[k] *)

Inductive Mutation :=
| OnSession (op : ObjOp)                         (* the operation on context.session *)
| SetResponse (v : JSValue).                     (* context.response = v *)

(** One invocation of user code: the writes it attempts, in order, whether
    it is strict-mode code (a refused assignment throws) and whether it
    throws at the end. *)
Record Effect := mkEffect {
  strict : bool;
  script : list Mutation;
  raises : option Error
}.

(** [Action<C, E>]: a function of (context, props) whose result is another
    action or void. *)
Inductive Action :=
| Act (name : string) (body : Context → Props → Effect * option Action).

Definition action_name (a : Action) : string :=
  match a with Act n _ => n end.

Definition action_body (a : Action) : Context → Props → Effect * option Action :=
  match a with Act _ b => b end.

Definition Plugin := Context → Effect.

(** What [updateSession] attempts on the session it is handed. *)
Record Update := mkUpdate {
  u_strict : bool;
  u_ops : list ObjOp;
  u_raises : option Error
}.

Record CreateContextArgs := mkCreateContextArgs {
  arg_event : Event;
  arg_session : option Obj;
  arg_initialState : JSValue;
  arg_requestContext : option RequestContext
}.

(** The [Connector] interface.  [getUniqueSessionKey] returns a string or
    nothing; [updateSession] mutates the session it is given;
    [handlerDidEnd] is the body of that method on the contexts this
    connector builds. *)
Record Connector := mkConnector {
  platform : string;
  mapRequestToEvents : Body → list Event;
  getUniqueSessionKey : Payload → option RequestContext → option string;
  updateSession : Obj → Payload → Update;
  createContext : CreateContextArgs → Context;
  handlerDidEnd : Context → Effect
}.

(** The [SessionStore] interface.  [read] gives the stored record or
    nothing; [write_error] is the rejection of a [write], if any.  What a
    write stores is not read back within a request (every read precedes
    every write), so writes are only recorded in the trace. *)
Record SessionStore := mkSessionStore {
  read : string → option Obj;
  write_error : JSValue → Obj → option Error
}.

(** Calls made on the collaborators, in the order they are issued. *)
Inductive Call :=
| CInit
| CRead (id : string)
| CWrite (id : JSValue) (s : Obj)
| CMapRequestToEvents (b : Body)
| CGetUniqueSessionKey (p : Payload) (rc : option RequestContext)
| CUpdateSession (s : Obj) (p : Payload)
| CCreateContext (a : CreateContextArgs)
| CPlugin (c : Context)
| CInvoke (a : Action) (p : Props)
| CHandlerDidEnd
| CEmitError (e : Error)
| CConsoleError (e : Error).

Definition is_write (c : Call) : bool :=
  match c with CWrite _ _ => true | _ => false end.


(** Mutable state shared by the requests of one bot. *)
Record World := mkWorld {
  initialized : bool;      (* this._initialized *)
  clock : Z;               (* Date.now() *)
  trace : list Call
}.

Definition emit (c : Call) (w : World) : World :=
  {| initialized := initialized w; clock := clock w; trace := trace w ++ [c] |}.

Definition emit_all (cs : list Call) (w : World) : World :=
  {| initialized := initialized w; clock := clock w; trace := trace w ++ cs |}.

Record Bot := mkBot {
  camelcaseKeysDeep : Body → Body;   (* imported from messaging-api-common *)
  sessions : SessionStore;
  connector : Connector;
  handler : option Action;
  errorHandler : option Action;
  initialState : JSValue;
  plugins : list Plugin;
  sync : bool
}.

(** [new Bot({ connector, sessionStore, sync })]: no handler, no error
    handler, no plugins, empty initial state.  ([camelcaseKeysDeep] is the
    imported helper the handler calls.) *)
Definition new_bot (camelcase : Body → Body) (conn : Connector)
    (store : SessionStore) (sync_mode : bool) : Bot :=
  {| camelcaseKeysDeep := camelcase; sessions := store; connector := conn;
     handler := None; errorHandler := None; initialState := JObj [];
     plugins := []; sync := sync_mode |}.

Definition onEvent (h : Action) (bot : Bot) : Bot :=
  {| camelcaseKeysDeep := camelcaseKeysDeep bot; sessions := sessions bot;
     connector := connector bot; handler := Some h;
     errorHandler := errorHandler bot; initialState := initialState bot;
     plugins := plugins bot; sync := sync bot |}.

Definition onError (h : Action) (bot : Bot) : Bot :=
  {| camelcaseKeysDeep := camelcaseKeysDeep bot; sessions := sessions bot;
     connector := connector bot; handler := handler bot;
     errorHandler := Some h; initialState := initialState bot;
     plugins := plugins bot; sync := sync bot |}.



(** ** Running user code against objects and contexts *)

Definition refused : Error := typeError "Cannot assign to read only property".
Definition not_definable : Error := typeError "Cannot redefine property".
Definition no_session : Error := typeError "Cannot read properties of undefined".

(** One operation on an object.  A refused assignment or delete throws in
    strict-mode code and is ignored otherwise; a refused
    [Object.defineProperty] always throws. *)
Definition obj_step (strict_mode : bool) (op : ObjOp) (o : Obj) : Obj * option Error :=
  match op with
  | Assign k v =>
      match set o k v with
      | Some o' => (o', None)
      | None => (o, if strict_mode then Some refused else None)
      end
  | Define k d =>
      match define_property o k d with
      | Some o' => (o', None)
      | None => (o, Some not_definable)
      end
  | Delete k =>
      match delete_prop o k with
      | Some o' => (o', None)
      | None => (o, if strict_mode then Some refused else None)
      end
  end.

Fixpoint obj_run (strict_mode : bool) (ops : list ObjOp) (o : Obj) : Obj * option Error :=
  match ops with
  | [] => (o, None)
  | op :: rest =>
      match obj_step strict_mode op o with
      | (o', None) => obj_run strict_mode rest o'
      | stopped => stopped
      end
  end.

Definition apply_update (u : Update) (o : Obj) : Obj * option Error :=
  match obj_run (u_strict u) (u_ops u) o with
  | (o', None) => (o', u_raises u)
  | stopped => stopped
  end.

Definition with_session (c : Context) (o : Obj) : Context :=
  {| event := event c; session := Some o; response := response c;
     isSessionWritten := isSessionWritten c; hasEndHook := hasEndHook c |}.

Definition with_response (c : Context) (v : JSValue) : Context :=
  {| event := event c; session := session c; response := v;
     isSessionWritten := isSessionWritten c; hasEndHook := hasEndHook c |}.

Definition mark_written (c : Context) : Context :=
  {| event := event c; session := session c; response := response c;
     isSessionWritten := true; hasEndHook := hasEndHook c |}.

Definition mutate (strict_mode : bool) (m : Mutation) (c : Context) : Context * option Error :=
  match m with
  | SetResponse v => (with_response c v, None)
  | OnSession op =>
      match session c with
      | None => (c, Some no_session)
      | Some o =>
          let '(o', err) := obj_step strict_mode op o in
          (with_session c o', err)
      end
  end.

Fixpoint mutate_all (strict_mode : bool) (ms : list Mutation) (c : Context) : Context * option Error :=
  match ms with
  | [] => (c, None)
  | m :: rest =>
      match mutate strict_mode m c with
      | (c', None) => mutate_all strict_mode rest c'
      | stopped => stopped
      end
  end.

(** The context after one piece of user code ran, and what it threw. *)
Definition perform (e : Effect) (c : Context) : Context * option Error :=
  match mutate_all (strict e) (script e) c with
  | (c', None) => (c', raises e)
  | stopped => stopped
  end.

(** ** The continuation engine: [run] *)

(** How an invocation completes: it returns the next action or void, or
    it throws. *)
Inductive Completion :=
| Returns (nextDialog : option Action)
| Throws (e : Error).

(** [await a(context, props)]. *)
Definition invoke (a : Action) (c : Context) (p : Props) : Context * Completion :=
  let '(eff, next) := action_body a c p in
  match perform eff c with
  | (c', None) => (c', Returns next)
  | (c', Some e) => (c', Throws e)
  end.

(** One entry of the invocation log: the action, the props it received
    and the context it saw. *)
Record Invocation := mkInvocation {
  inv_action : Action;
  inv_props : Props;
  inv_context : Context
}.

(** How the promise returned by [Run] settles.  [Resolved] carries no
    value: the function is declared [Promise<void>] and returns the void
    that ended the chain. *)
Inductive Settled :=
| Resolved
| RejectedWith (e : Error).

Record RunResult := mkRunResult {
  run_context : Context;
  run_log : list Invocation;
  run_settled : Settled
}.

(** The [while (typeof nextDialog === 'function')] loop; [fuel] bounds the
    number of iterations. *)
Fixpoint run_while (fuel : nat) (nextDialog : option Action) (c : Context)
    (log : list Invocation) : option RunResult :=
  match nextDialog with
  | None => Some {| run_context := c; run_log := log; run_settled := Resolved |}
  | Some a =>
      match fuel with
      | O => None
      | S fuel' =>
          let log' : list Invocation := log ++ [mkInvocation a [] c] in
          match invoke a c [] with
          | (c', Throws e) =>
              Some {| run_context := c'; run_log := log'; run_settled := RejectedWith e |}
          | (c', Returns next) => run_while fuel' next c' log'
          end
      end
  end.

(** [run(action)(context, props)]. *)
Definition run (action : Action) (fuel : nat) (c : Context) (p : Props) : option RunResult :=
  let log : list Invocation := [mkInvocation action p c] in
  match invoke action c p with
  | (c', Throws e) =>
      Some {| run_context := c'; run_log := log; run_settled := RejectedWith e |}
  | (c', Returns next) => run_while fuel next c' log
  end.

(** ** The dispatcher *)

(** *** [initSessionStore] *)

(** The synchronous prefix of [initSessionStore]: test the latch and, when
    it is unset, call [init] and suspend on its result.  The boolean tells
    whether the caller is now awaiting [init]. *)
Definition initSessionStore_enter (w : World) : bool * World :=
  if initialized w then (false, w) else (true, emit CInit w).

(** The continuation after [await this._sessions.init()]. *)
Definition initSessionStore_resume (w : World) : World :=
  {| initialized := true; clock := clock w; trace := trace w |}.

(** [await this.initSessionStore()] with nothing interleaved. *)
Definition initSessionStore (w : World) : World :=
  match initSessionStore_enter w with
  | (true, w') => initSessionStore_resume w'
  | (false, w') => w'
  end.

(** *** Session resolution (the [pMap] mapper) *)

(** [events.length === 1 ? body : event]. *)
Definition payload_for (body : Body) (n_events : nat) (ev : Event) : Payload :=
  if Nat.eqb n_events 1 then WholeBody body else OneEvent ev.

(** A session key is used when it is truthy. *)
Definition usable_key (k : option string) : option string :=
  match k with
  | Some s => if String.eqb s "" then None else Some s
  | None => None
  end.

(** [`${platform}:${sessionKey}`]. *)
Definition compose_session_id (pf key : string) : string :=
  String.append pf (String.append ":" key).

(** Lines 216-221: [Object.defineProperty(session, 'id', ...)] with
    [session.id || sessionId]. *)
Definition fix_id (sessionId : string) (s0 : Obj) : Error + Obj :=
  match define_property s0 "id"
          (fixed_descriptor (or_else (get s0 "id") (JStr sessionId))) with
  | None => inl not_definable
  | Some s1 => inr s1
  end.

(** Lines 223-230: default [platform], then fix it. *)
Definition fix_platform (pf : string) (s1 : Obj) : Error + Obj :=
  let assigned :=
    if truthy (get s1 "platform") then Some s1
    else set s1 "platform" (JStr pf) in
  match assigned with
  | None => inl refused
  | Some s2 =>
      match define_property s2 "platform"
              (fixed_descriptor (get s2 "platform")) with
      | None => inl not_definable
      | Some s3 => inr s3
      end
  end.

Definition fix_session (pf sessionId : string) (s0 : Obj) : Error + Obj :=
  match fix_id sessionId s0 with
  | inl e => inl e
  | inr s1 => fix_platform pf s1
  end.

(** The session handed to [createContext] for one event, with the calls
    made on the way. *)
Definition resolve_session (bot : Bot) (payload : Payload) (key : string)
    (w : World) : (Error + Obj) * World :=
  let conn := connector bot in
  let sessionId := compose_session_id (platform conn) key in
  let w1 := emit (CRead sessionId) w in
  let s0 := default create_null (read (sessions bot) sessionId) in
  match fix_session (platform conn) sessionId s0 with
  | inl e => (inl e, w1)
  | inr s3 =>
      let w2 := emit (CUpdateSession s3 payload) w1 in
      match apply_update (updateSession conn s3 payload) s3 with
      | (s4, None) => (inr s4, w2)
      | (_, Some e) => (inl e, w2)
      end
  end.

Definition resolve_event (bot : Bot) (body : Body) (rc : option RequestContext)
    (n_events : nat) (ev : Event) (w : World) : (Error + Context) * World :=
  let conn := connector bot in
  let payload := payload_for body n_events ev in
  let sessionKey := getUniqueSessionKey conn payload rc in
  let w1 := emit (CGetUniqueSessionKey payload rc) w in
  let build (s : option Obj) (w' : World) :=
    let args := {| arg_event := ev; arg_session := s;
                   arg_initialState := initialState bot;
                   arg_requestContext := rc |} in
    (inr (createContext conn args), emit (CCreateContext args) w') in
  match usable_key sessionKey with
  | None => build None w1
  | Some key =>
      match resolve_session bot payload key w1 with
      | (inl e, w2) => (inl e, w2)
      | (inr s, w2) => build (Some s) w2
      end
  end.

(** [pMap(events, mapper)]: the contexts in event order, or the first
    rejection.  Mappers of different events only read the store and touch
    their own session, so their calls are listed event by event. *)
Fixpoint resolve_all (bot : Bot) (body : Body) (rc : option RequestContext)
    (n_events : nat) (evs : list Event) (w : World)
    : (Error + list Context) * World :=
  match evs with
  | [] => (inr [], w)
  | ev :: rest =>
      match resolve_event bot body rc n_events ev w with
      | (inl e, w1) => (inl e, w1)
      | (inr c, w1) =>
          match resolve_all bot body rc n_events rest w1 with
          | (inl e, w2) => (inl e, w2)
          | (inr cs, w2) => (inr (c :: cs), w2)
          end
      end
  end.

(** *** Plugins *)

Definition first_error (a b : option Error) : option Error :=
  match a with Some _ => a | None => b end.

(** [this._plugins.map(ext => ext(context))] on one context (lines
    253-257): every plugin is called on the context in turn; the first
    failure is what [Promise.all] rejects with. *)
Fixpoint apply_plugins (exts : list Plugin) (c : Context) (w : World)
    : Context * World * option Error :=
  match exts with
  | [] => (c, w, None)
  | ext :: rest =>
      let '(c1, err1) := perform (ext c) c in
      let '(c2, w2, err2) := apply_plugins rest c1 (emit (CPlugin c) w) in
      (c2, w2, first_error err1 err2)
  end.

Fixpoint run_plugins (exts : list Plugin) (cs : list Context) (w : World)
    : list Context * World * option Error :=
  match cs with
  | [] => ([], w, None)
  | c :: rest =>
      let '(c', w1, err1) := apply_plugins exts c w in
      let '(cs', w2, err2) := run_plugins exts rest w1 in
      (c' :: cs', w2, first_error err1 err2)
  end.

(** *** Per-context handler tasks *)

Inductive Phase :=
| Main       (* run(handler)(context) *)
| Recover.   (* run(errorHandler)(context, { error }) *)

(** Where one context's promise chain stands.  Every state is one turn of
    the event loop away from the next, so tasks of different contexts can
    interleave between any two of them. *)
Inductive TaskState :=
| TRun (ph : Phase) (a : Action) (p : Props)   (* about to invoke [a] *)
| TEnd                                         (* handler chain over; [handlerDidEnd] next *)
| TCatch (e : Error)                           (* first [.catch] about to run *)
| TEscalate (e : Error)                        (* second [.catch] about to run *)
| TThrowing (e : Error)                        (* [emitError] done, rejection in flight *)
| TFulfilled
| TRejected (e : Error).

Record Task := mkTask {
  ctx : Context;
  state : TaskState
}.

(** [Promise.resolve().then(() => run(handler)(context))]: [props]
    defaults to [{}]. *)
Definition start (h : Action) (c : Context) : Task :=
  {| ctx := c; state := TRun Main h [] |}.

Definition on_throw (ph : Phase) (e : Error) : TaskState :=
  match ph with
  | Main => TCatch e
  | Recover => TEscalate e
  end.

Definition on_void (ph : Phase) : TaskState :=
  match ph with
  | Main => TEnd
  | Recover => TFulfilled
  end.

(** One turn of one task, with the calls it makes. *)
Definition task_step (bot : Bot) (t : Task) : Task * list Call :=
  let c := ctx t in
  match state t with
  | TRun ph a p =>
      match invoke a c p with
      | (c', Throws e) => (mkTask c' (on_throw ph e), [CInvoke a p])
      | (c', Returns (Some next)) => (mkTask c' (TRun ph next []), [CInvoke a p])
      | (c', Returns None) => (mkTask c' (on_void ph), [CInvoke a p])
      end
  | TEnd =>
      if hasEndHook c
      then
        match perform (handlerDidEnd (connector bot) c) c with
        | (c', None) => (mkTask c' TFulfilled, [CHandlerDidEnd])
        | (c', Some e) => (mkTask c' (TCatch e), [CHandlerDidEnd])
        end
      else (mkTask c TFulfilled, [])
  | TCatch e =>
      match errorHandler bot with
      | Some eh => (mkTask c (TRun Recover eh [("error", e)]), [])
      | None => (mkTask c (TEscalate e), [])
      end
  | TEscalate e => (mkTask c (TThrowing e), [CEmitError e])
  | TThrowing e => (mkTask c (TRejected e), [])
  | TFulfilled => (t, [])
  | TRejected _ => (t, [])
  end.

(** How [Promise.all] over the tasks stands. *)
Inductive Verdict :=
| AllFulfilled
| FirstRejected (e : Error).

Definition rejection (t : Task) : option Error :=
  match state t with TRejected e => Some e | _ => None end.

Definition fulfilled (t : Task) : bool :=
  match state t with TFulfilled => true | _ => false end.

Fixpoint find_rejection (pool : list Task) : option Error :=
  match pool with
  | [] => None
  | t :: rest => first_error (rejection t) (find_rejection rest)
  end.

Definition verdict (pool : list Task) : option Verdict :=
  match find_rejection pool with
  | Some e => Some (FirstRejected e)
  | None => if forallb fulfilled pool then Some AllFulfilled else None
  end.

(** [await promises]: tasks advance in the order the scheduler picks
    ([sched] lists the index of the task that takes each turn) until
    [Promise.all] settles.  [None]: still pending when the schedule ends. *)
Fixpoint settle (bot : Bot) (sched : list nat) (pool : list Task) (w : World)
    : option (Verdict * list Task * World) :=
  match verdict pool with
  | Some v => Some (v, pool, w)
  | None =>
      match sched with
      | [] => None
      | i :: sched' =>
          match pool !! i with
          | None => settle bot sched' pool w
          | Some t =>
              let '(t', calls) := task_step bot t in
              settle bot sched' (<[i := t']> pool) (emit_all calls w)
          end
      end
  end.

(** *** Session persistence *)

(** The body of the [contexts.map(async context => ...)] callback. *)
Definition persist_one (bot : Bot) (t : Task) (w : World)
    : Task * World * option Error :=
  let c1 := mark_written (ctx t) in
  match session c1 with
  | None => (mkTask c1 (state t), w, None)
  | Some s =>
      match set s "lastActivity" (JNum (clock w)) with
      | None => (mkTask c1 (state t), w, Some refused)
      | Some s' =>
          (mkTask (with_session c1 s') (state t),
           emit (CWrite (get s' "id") s') w,
           write_error (sessions bot) (get s' "id") s')
      end
  end.

Fixpoint persist_all (bot : Bot) (pool : list Task) (w : World)
    : list Task * World * option Error :=
  match pool with
  | [] => ([], w, None)
  | t :: rest =>
      let '(t', w1, err1) := persist_one bot t w in
      let '(rest', w2, err2) := persist_all bot rest w1 in
      (t' :: rest', w2, first_error err1 err2)
  end.

Definition console_error (err : option Error) (w : World) : World :=
  match err with
  | Some e => emit (CConsoleError e) w
  | None => w
  end.

(** What follows [promises] in either mode: persist when every task
    fulfilled, log the error otherwise. *)
Definition after_tasks (bot : Bot) (v : Verdict) (pool : list Task) (w : World)
    : list Task * World :=
  match v with
  | AllFulfilled =>
      let '(pool', w', err) := persist_all bot pool w in
      (pool', console_error err w')
  | FirstRejected e => (pool, emit (CConsoleError e) w)
  end.

(** *** The request handler *)

Inductive Reply :=
| Rejected (e : Error)     (* the returned promise rejects *)
| Returned (v : JSValue)   (* it resolves with [v] *)
| Pending.                 (* it has not settled when the schedule ends *)

(** The world and the contexts at the moment the handler's promise
    settles.  [deferred] holds in fire-and-forget mode, where the
    [promises.then(...)] continuation is still to run. *)
Record Exit := mkExit {
  reply : Reply;
  world : World;
  contexts : list Task;
  deferred : bool
}.

Definition missing_argument : Error :=
  mkError "Error" "Bot.createRequestHandler: Missing argument.".

Definition missing_handler : Error :=
  mkError "Error"
    "Bot: Missing event handler function. You should assign it using onEvent(...)".

Definition undefined_response : Error :=
  typeError "Cannot read property 'response' of undefined".

Definition fail (e : Error) (w : World) : Exit :=
  {| reply := Rejected e; world := w; contexts := []; deferred := false |}.

(** The [if (this._sync)] branch. *)
Definition respond_sync (bot : Bot) (sched : list nat) (pool : list Task)
    (w : World) : Exit :=
  match settle bot sched pool w with
  | None => {| reply := Pending; world := w; contexts := pool; deferred := false |}
  | Some (v, pool1, w1) =>
      let '(pool2, w2) := after_tasks bot v pool1 w1 in
      match pool2 !! 0 with
      | None => {| reply := Rejected undefined_response; world := w2;
                   contexts := pool2; deferred := false |}
      | Some first =>
          {| reply := Returned (response (ctx first)); world := w2;
             contexts := pool2; deferred := false |}
      end
  end.

(** The async arrow function returned by [createRequestHandler]. *)
Definition requestHandler (bot : Bot) (sched : list nat) (inputBody : Body)
    (requestContext : option RequestContext) (w : World) : Exit :=
  if negb (truthy inputBody) then fail missing_argument w
  else
    let w1 := initSessionStore w in
    let body := camelcaseKeysDeep bot inputBody in
    let events := mapRequestToEvents (connector bot) body in
    let w2 := emit (CMapRequestToEvents body) w1 in
    match resolve_all bot body requestContext (length events) events w2 with
    | (inl e, w3) => fail e w3
    | (inr cs, w3) =>
        match run_plugins (plugins bot) cs w3 with
        | (_, w4, Some e) => fail e w4
        | (cs', w4, None) =>
            match handler bot with
            | None => fail missing_handler w4
            | Some h =>
                let pool := map (start h) cs' in
                if sync bot then respond_sync bot sched pool w4
                else {| reply := Returned JUndefined; world := w4;
                        contexts := pool; deferred := true |}
            end
        end
    end.

(** The [promises.then(...).catch(console.error)] continuation of
    fire-and-forget mode, run after the handler returned. *)
Definition background (bot : Bot) (sched : list nat) (x : Exit)
    : option (list Task * World) :=
  if deferred x then
    match settle bot sched (contexts x) (world x) with
    | None => None
    | Some (v, pool1, w1) => Some (after_tasks bot v pool1 w1)
    end
  else Some (contexts x, world x).

(** [createRequestHandler()]: throws when no handler was registered.  (It
    also installs [console.error] as the default listener of the error
    bus; what [emitError] reaches is recorded as [CEmitError].) *)
Definition createRequestHandler (bot : Bot)
    : Error + (list nat → Body → option RequestContext → World → Exit) :=
  match handler bot with
  | None => inl missing_handler
  | Some _ => inr (requestHandler bot)
  end.

(** * Definitions used by the statements *)

(** ** Dialog chaining, as the specification words it *)

(** The chain as the specification words it: the entry action receives the
    given props, every action returned by an invocation is invoked next
    with empty props, and the chain ends at the first invocation that
    returns void.  [Chain a p c log c'] lists the invocations in order. *)
Inductive Chain : Action → Props → Context → list Invocation → Context → Prop :=
| chain_last a p c c' :
    invoke a c p = (c', Returns None) →
    Chain a p c [mkInvocation a p c] c'
| chain_next a p c c1 next log c' :
    invoke a c p = (c1, Returns (Some next)) →
    Chain next [] c1 log c' →
    Chain a p c (mkInvocation a p c :: log) c'.

(** ** Traces and call classes *)

(** [w'] continues [w] with calls that all satisfy [P]; the latch and the
    clock are untouched. *)
Definition grows (P : Call → Prop) (w w' : World) : Prop :=
  initialized w' = initialized w ∧ clock w' = clock w
  ∧ ∃ cs, trace w' = trace w ++ cs ∧ Forall P cs.

Definition resolution_call (body : Body) (n_events : nat) (evs : list Event)
    (c : Call) : Prop :=
  match c with
  | CRead _ => True
  | CGetUniqueSessionKey p _ => ∃ ev, ev ∈ evs ∧ p = payload_for body n_events ev
  | CUpdateSession _ p => ∃ ev, ev ∈ evs ∧ p = payload_for body n_events ev
  | CCreateContext a => arg_event a ∈ evs
  | _ => False
  end.

Definition plugin_call (c : Call) : Prop :=
  match c with CPlugin _ => True | _ => False end.

Definition task_call (c : Call) : Prop :=
  match c with
  | CInvoke _ _ | CHandlerDidEnd | CEmitError _ => True
  | _ => False
  end.

Definition write_call (c : Call) : Prop :=
  match c with CWrite _ _ => True | _ => False end.

Definition console_call (c : Call) : Prop :=
  match c with CConsoleError _ => True | _ => False end.

(** A call made between the latch and the creation of the handler tasks. *)
Definition prelude_call (bot : Bot) (body : Body) (c : Call) : Prop :=
  let events := mapRequestToEvents (connector bot) body in
  c = CMapRequestToEvents body
  ∨ resolution_call body (length events) events c
  ∨ plugin_call c.

(** The calls made before the handler tasks are created: the latch, the
    connector's event mapping, session resolution and plugins. *)
Definition prelude (bot : Bot) (body : Body) (w w4 : World) : Prop :=
  let events := mapRequestToEvents (connector bot) body in
  initialized w4 = true ∧ clock w4 = clock w
  ∧ ∃ cs,
      trace w4 = trace w ++ (if initialized w then [] else [CInit])
                 ++ CMapRequestToEvents body :: cs
      ∧ Forall (λ c, resolution_call body (length events) events c ∨ plugin_call c) cs.

Definition fire_and_forget_exit (pool : list Task) (w : World) : Exit :=
  {| reply := Returned JUndefined; world := w; contexts := pool; deferred := true |}.

Definition first_response (pool : list Task) : Reply :=
  match pool !! 0 with
  | Some first => Returned (response (ctx first))
  | None => Rejected undefined_response
  end.

(** ** A small bot to run the model on *)

Module Demo.

(** Every field of the body object is one event. *)
Definition fields_to_events (b : Body) : list Event :=
  match b with
  | JObj fields => map (λ kv, mkEvent (snd kv)) fields
  | _ => []
  end.

Definition text_key (v : JSValue) : option string :=
  match v with
  | JStr s => Some s
  | JObj [(_, JStr s)] => Some s
  | _ => None
  end.

Definition payload_key (p : Payload) : option string :=
  match p with
  | WholeBody b => text_key b
  | OneEvent e => text_key (rawEvent e)
  end.

Definition quiet : Effect := {| strict := true; script := []; raises := None |}.

Definition conn : Connector :=
  {| platform := "demo";
     mapRequestToEvents := fields_to_events;
     getUniqueSessionKey := λ p _, payload_key p;
     updateSession := λ _ _,
       {| u_strict := true; u_ops := [Assign "user" (JStr "u1")]; u_raises := None |};
     createContext := λ a,
       {| event := arg_event a; session := arg_session a; response := JUndefined;
          isSessionWritten := false; hasEndHook := false |};
     handlerDidEnd := λ _, quiet |}.

Definition empty_store : SessionStore :=
  {| read := λ _, None; write_error := λ _ _, None |}.

(** Replies with the text of the event, and throws on the text "boom". *)
Definition echo : Action :=
  Act "echo" (λ c _,
    match rawEvent (event c) with
    | JStr "boom" => ({| strict := true; script := []; raises := Some (JStr "bang") |}, None)
    | v => ({| strict := true; script := [SetResponse v]; raises := None |}, None)
    end).

(** A two-step dialog: the first action stores a note in the session and
    hands over to the second, which answers. *)
Definition answer : Action :=
  Act "answer" (λ _ _,
    ({| strict := true; script := [SetResponse (JStr "done")]; raises := None |}, None)).

Definition greet : Action :=
  Act "greet" (λ _ _,
    ({| strict := true; script := [OnSession (Assign "note" (JStr "hi"))];
        raises := None |}, Some answer)).

(** An error handler that answers with an apology. *)
Definition apologize : Action :=
  Act "apologize" (λ _ _,
    ({| strict := true; script := [SetResponse (JStr "sorry")]; raises := None |}, None)).

Definition bot (sync_mode : bool) (h : Action) : Bot :=
  onEvent h (new_bot (λ b, b) conn empty_store sync_mode).

Definition fresh : World := {| initialized := false; clock := 1000%Z; trace := [] |}.

Definition one_message : Body := JObj [("m1", JStr "hello")].
Definition two_messages : Body := JObj [("m1", JStr "hello"); ("m2", JStr "boom")].

Definition some_context : Context :=
  {| event := mkEvent (JStr "hello"); session := Some create_null;
     response := JUndefined; isSessionWritten := false; hasEndHook := false |}.

End Demo.

(** The two-step dialog run on a context: [greet] receives the props,
    [answer] receives none. *)
Definition greeting_props : Props := [("intent", JStr "hi")].

Definition after_greet : Context :=
  (invoke Demo.greet Demo.some_context greeting_props).1.

Definition after_answer : Context := (invoke Demo.answer after_greet []).1.

(** ** The claims that the code does not meet, as stated *)

(** C7 as stated: the request fails and leaves no call behind. *)
Definition fails_untouched (bot : Bot) (sched : list nat) (b : Body)
    (rc : option RequestContext) (w : World) : Prop :=
  let x := requestHandler bot sched b rc w in
  (∃ e, reply x = Rejected e) ∧ trace (world x) = trace w.



(** ** Auxiliary predicates *)



(** An object as a store hands it out: extensible, every field writable
    and configurable. *)
Definition plain_object (o : Obj) : Prop :=
  extensible o = true
  ∧ ∀ k p, props o !! k = Some p → writable p = true ∧ configurable p = true.

(** The context holds a session whose [id] is locked at [i] and whose
    [platform] is locked at [p]. *)
Definition pinned (c : Context) (i p : JSValue) : Prop :=
  ∃ s, session c = Some s ∧ locked s "id" i ∧ locked s "platform" p.

(** A connector update that tries to overwrite, redefine and delete the
    fixed fields of a fresh session. *)
Definition hostile_update : Update :=
  {| u_strict := false;
     u_ops := [Assign "id" (JStr "other"); Delete "platform";
               Define "id" (fixed_descriptor (JStr "other"));
               Assign "user" (JStr "u1")];
     u_raises := None |}.

Definition fresh_session : Obj :=
  match fix_session "demo" "demo:hello" create_null with
  | inr s => s
  | inl _ => create_null
  end.

(** ** The initialization latch under interleaving *)

Fixpoint count_calls (f : Call → bool) (cs : list Call) : nat :=
  match cs with
  | [] => 0
  | c :: rest => (if f c then 1 else 0) + count_calls f rest
  end.


Module Latch.

(** Where a request stands with respect to [await this.initSessionStore()]. *)
Inductive Progress :=
| Arrived        (* the handler was called, nothing ran yet *)
| AwaitingInit   (* suspended on [this._sessions.init()] *)
| Ready.         (* past the latch *)

(** One uninterrupted stretch of a request. *)
Definition step (pr : Progress) (w : World) : Progress * World :=
  match pr with
  | Arrived =>
      match initSessionStore_enter w with
      | (true, w') => (AwaitingInit, w')
      | (false, w') => (Ready, w')
      end
  | AwaitingInit => (Ready, initSessionStore_resume w)
  | Ready => (Ready, w)
  end.


End Latch.




(** * Definitions for the further properties *)

(** ** A chain that ends in a throw *)

(** As [Chain], but the last invocation throws [e] instead of returning
    void. *)
Inductive FailingChain
  : Action → Props → Context → list Invocation → Context → Error → Prop :=
| failing_last a p c c' e :
    invoke a c p = (c', Throws e) →
    FailingChain a p c [mkInvocation a p c] c' e
| failing_next a p c c1 next log c' e :
    invoke a c p = (c1, Returns (Some next)) →
    FailingChain next [] c1 log c' e →
    FailingChain a p c (mkInvocation a p c :: log) c' e.

(** [n] consecutive turns of one task, with the calls they make. *)
Fixpoint advance (bot : Bot) (n : nat) (t : Task) : Task * list Call :=
  match n with
  | O => (t, [])
  | S n' =>
      let '(t1, calls1) := task_step bot t in
      let '(t2, calls2) := advance bot n' t1 in
      (t2, calls1 ++ calls2)
  end.

(** The call a logged invocation shows up as in the trace. *)
Definition invocation_call (i : Invocation) : Call :=
  CInvoke (inv_action i) (inv_props i).

(** ** Reading a trace *)






(** The write the persistence step issues for a task at time [now]: none
    for a context without session, none when [lastActivity] cannot be
    assigned. *)
Definition stamped (now : Z) (t : Task) : option Call :=
  match session (ctx t) with
  | None => None
  | Some s =>
      match set s "lastActivity" (JNum now) with
      | None => None
      | Some s' => Some (CWrite (get s' "id") s')
      end
  end.

(** A write of a session under its own [id], stamped with [now]. *)
Definition stamped_write (now : Z) (c : Call) : Prop :=
  ∃ s, c = CWrite (get s "id") s ∧ get s "lastActivity" = JNum now.

(** ** Accounting for what the tasks do *)

(** The error an [emitError] call carries. *)
Definition emitted (c : Call) : option Error :=
  match c with CEmitError e => Some e | _ => None end.

(** The error a task has announced on the error bus: it has, once it is
    past the second [.catch]. *)
Definition announced (t : Task) : option Error :=
  match state t with
  | TThrowing e | TRejected e => Some e
  | _ => None
  end.



(** The props the dispatcher itself hands to an action: none, or the error
    for the registered error handler. *)
Definition dispatcher_props (bot : Bot) (a : Action) (p : Props) : Prop :=
  p = [] ∨ (errorHandler bot = Some a ∧ ∃ e, p = [("error", e)]).

Definition props_ok_call (bot : Bot) (c : Call) : Prop :=
  match c with
  | CInvoke a p => dispatcher_props bot a p
  | _ => True
  end.

Definition props_ok_task (bot : Bot) (t : Task) : Prop :=
  match state t with
  | TRun _ a p => dispatcher_props bot a p
  | _ => True
  end.


(** ** Where sessions are written *)





(** ** Registration *)











(** ** A field fixed by the handler's descriptor *)

Definition fixed_at (o : Obj) (k : string) (v : JSValue) : Prop :=
  props o !! k
  = Some {| value := v; writable := false; enumerable := true;
            configurable := false |}.

(** ** Settled tasks *)


(** ** Inputs for the examples of the further properties *)

Definition boom_context : Context :=
  {| event := mkEvent (JStr "boom"); session := Some create_null;
     response := JUndefined; isSessionWritten := false; hasEndHook := false |}.


(** The two-step dialog entered without props, as the dispatcher does. *)
Definition greet_run : RunResult :=
  {| run_context := after_answer;
     run_log := [mkInvocation Demo.greet [] Demo.some_context;
                 mkInvocation Demo.answer [] after_greet];
     run_settled := Resolved |}.

Definition pool_of (r : option (Verdict * list Task * World)) : list Task :=
  match r with Some (_, pool, _) => pool | None => [] end.

Definition world_of (r : option (Verdict * list Task * World)) : World :=
  match r with Some (_, _, w) => w | None => Demo.fresh end.

(** One failing task run to the end. *)
Definition boom_settled : option (Verdict * list Task * World) :=
  settle (Demo.bot true Demo.echo) [0; 0; 0; 0]
    (map (start Demo.echo) [boom_context]) Demo.fresh.


(** * Properties *)

(** ** Dialog chaining *)




Lemma run_while_sound fuel :
  ∀ a c acc r,
    run_while fuel (Some a) c acc = Some r → run_settled r = Resolved →
    ∃ log, run_log r = acc ++ log ∧ Chain a [] c log (run_context r).
Proof.
  induction fuel as [|fuel IH]; intros a c acc r Hrun Hres; [discriminate|].
  simpl in Hrun. destruct (invoke a c []) as [c1 [[next|]|e]] eqn:Hinv.
  - destruct (IH next c1 _ r Hrun Hres) as (log & Hlog & Hchain).
    exists (mkInvocation a [] c :: log). split.
    + by rewrite Hlog, <- app_assoc.
    + eapply chain_next; eauto.
  - destruct fuel; simpl in Hrun; injection Hrun as <-;
      (exists [mkInvocation a [] c]; split; [reflexivity | by apply chain_last]).
  - injection Hrun as <-. discriminate.
Qed.

(** More fuel never changes a result. *)
Lemma run_while_fuel_mono fuel :
  ∀ next c acc r, run_while fuel next c acc = Some r →
  ∀ fuel', fuel ≤ fuel' → run_while fuel' next c acc = Some r.
Proof.
  induction fuel as [|fuel IH]; intros next c acc r Hrun fuel' Hle.
  - destruct next; [discriminate|]. destruct fuel'; exact Hrun.
  - destruct next as [a|]; [|destruct fuel'; exact Hrun].
    destruct fuel' as [|fuel']; [lia|]. simpl in *.
    destruct (invoke a c []) as [c1 [next|e]]; [|exact Hrun].
    apply (IH _ _ _ _ Hrun). lia.
Qed.


(** ** Traces *)

Lemma grows_refl P w : grows P w w.
Proof.
  repeat split. exists []. split; [by rewrite app_nil_r | constructor].
Qed.

Lemma grows_trans P w1 w2 w3 : grows P w1 w2 → grows P w2 w3 → grows P w1 w3.
Proof.
  intros (Hi1 & Hc1 & cs1 & Ht1 & HP1) (Hi2 & Hc2 & cs2 & Ht2 & HP2).
  repeat split; [congruence | congruence |].
  exists (cs1 ++ cs2). split.
  - by rewrite Ht2, Ht1, <- app_assoc.
  - by apply Forall_app.
Qed.

Lemma grows_weaken (P Q : Call → Prop) w w' :
  (∀ c, P c → Q c) → grows P w w' → grows Q w w'.
Proof.
  intros HPQ (Hi & Hc & cs & Ht & HP). repeat split; try done.
  exists cs. split; [done|]. eapply Forall_impl; eauto.
Qed.

Lemma grows_emit_all (P : Call → Prop) cs w :
  Forall P cs → grows P w (emit_all cs w).
Proof. intros HP. repeat split. by exists cs. Qed.

Lemma grows_emit (P : Call → Prop) c w : P c → grows P w (emit c w).
Proof. intros HP. repeat split. exists [c]. split; [done | by constructor]. Qed.

Lemma resolution_call_mono body n evs evs' c :
  (∀ ev, ev ∈ evs → ev ∈ evs') →
  resolution_call body n evs c → resolution_call body n evs' c.
Proof.
  intros Hsub. destruct c; simpl; try done.
  - intros (ev & Hin & ->). eauto.
  - intros (ev & Hin & ->). eauto.
  - apply Hsub.
Qed.

Lemma resolve_session_grows bot body n ev key w r w' :
  resolve_session bot (payload_for body n ev) key w = (r, w') →
  grows (resolution_call body n [ev]) w w'.
Proof.
  unfold resolve_session. intros H.
  set (sid := compose_session_id _ key) in *.
  destruct (fix_session _ _ _) as [e|s3].
  - injection H as <- <-. apply grows_emit. exact I.
  - destruct (apply_update _ _) as [s4 [e|]]; injection H as <- <-;
      (eapply grows_trans; [apply (grows_emit _ (CRead sid)); exact I|]);
      apply grows_emit; exists ev; (split; [apply list_elem_of_here | done]).
Qed.

Lemma resolve_event_grows bot body rc n ev w r w' :
  resolve_event bot body rc n ev w = (r, w') →
  grows (resolution_call body n [ev]) w w'.
Proof.
  unfold resolve_event. intros H.
  assert (Hkey : grows (resolution_call body n [ev]) w
                   (emit (CGetUniqueSessionKey (payload_for body n ev) rc) w)).
  { apply grows_emit. exists ev. split; [apply list_elem_of_here | done]. }
  destruct (usable_key _) as [key|].
  - destruct (resolve_session _ _ _ _) as [[e|s] w2] eqn:Hs;
      apply resolve_session_grows in Hs; injection H as <- <-.
    + eapply grows_trans; eauto.
    + eapply grows_trans; [exact Hkey|]. eapply grows_trans; [exact Hs|].
      apply grows_emit. simpl. apply list_elem_of_here.
  - injection H as <- <-. eapply grows_trans; [exact Hkey|].
    apply grows_emit. simpl. apply list_elem_of_here.
Qed.

Lemma resolve_all_grows bot body rc n evs :
  ∀ w r w', resolve_all bot body rc n evs w = (r, w') →
  grows (resolution_call body n evs) w w'.
Proof.
  induction evs as [|ev rest IH]; intros w r w' H; simpl in H.
  - injection H as <- <-. apply grows_refl.
  - destruct (resolve_event _ _ _ _ _ _) as [[e|c] w1] eqn:Hev;
      apply resolve_event_grows in Hev;
      apply (grows_weaken _ (resolution_call body n (ev :: rest))) in Hev;
      try (intros c0; apply resolution_call_mono; intros ev0 Hin;
           apply list_elem_of_singleton in Hin; subst; apply list_elem_of_here).
    + by injection H as <- <-.
    + destruct (resolve_all _ _ _ _ rest w1) as [[e|cs] w2] eqn:Hrest;
        apply IH in Hrest;
        apply (grows_weaken _ (resolution_call body n (ev :: rest))) in Hrest;
        try (intros c0; apply resolution_call_mono; intros ev0 Hin;
             by apply list_elem_of_further);
        injection H as <- <-; eapply grows_trans; eauto.
Qed.

Lemma resolve_all_length bot body rc n evs :
  ∀ w cs w', resolve_all bot body rc n evs w = (inr cs, w') →
  length cs = length evs.
Proof.
  induction evs as [|ev rest IH]; intros w cs w' H; simpl in H.
  - by injection H as <- <-.
  - destruct (resolve_event _ _ _ _ _ _) as [[e|c] w1]; [discriminate|].
    destruct (resolve_all _ _ _ _ rest w1) as [[e|cs0] w2] eqn:Hrest; [discriminate|].
    injection H as <- <-. simpl. f_equal. eauto.
Qed.

Lemma apply_plugins_grows exts :
  ∀ c w c' w' err, apply_plugins exts c w = (c', w', err) → grows plugin_call w w'.
Proof.
  induction exts as [|ext rest IH]; intros c w c' w' err H; simpl in H.
  - injection H as <- <- <-. apply grows_refl.
  - destruct (perform _ _) as [c1 err1].
    destruct (apply_plugins rest c1 _) as [[c2 w2] err2] eqn:Hrest.
    injection H as <- <- <-. apply IH in Hrest.
    eapply grows_trans; [|exact Hrest]. apply grows_emit. exact I.
Qed.

Lemma run_plugins_grows exts cs :
  ∀ w cs' w' err, run_plugins exts cs w = (cs', w', err) → grows plugin_call w w'.
Proof.
  induction cs as [|c rest IH]; intros w cs' w' err H; simpl in H.
  - injection H as <- <- <-. apply grows_refl.
  - destruct (apply_plugins _ _ _) as [[c1 w1] err1] eqn:Hone.
    destruct (run_plugins _ rest w1) as [[cs2 w2] err2] eqn:Hrest.
    injection H as <- <- <-.
    eapply grows_trans; [eapply apply_plugins_grows | eapply IH]; eauto.
Qed.

Lemma run_plugins_length exts cs :
  ∀ w cs' w' err, run_plugins exts cs w = (cs', w', err) → length cs' = length cs.
Proof.
  induction cs as [|c rest IH]; intros w cs' w' err H; simpl in H.
  - by injection H as <- <- <-.
  - destruct (apply_plugins _ _ _) as [[c1 w1] err1].
    destruct (run_plugins _ rest w1) as [[cs2 w2] err2] eqn:Hrest.
    injection H as <- <- <-. simpl. f_equal. eauto.
Qed.

Lemma task_step_calls bot t t' calls :
  task_step bot t = (t', calls) → Forall task_call calls.
Proof.
  unfold task_step. intros H.
  destruct (state t) as [ph a p| |e|e|e| |e].
  - destruct (invoke a (ctx t) p) as [c' [[next|]|e]]; injection H as <- <-;
      by repeat constructor.
  - destruct (hasEndHook (ctx t)).
    + destruct (perform _ _) as [c' [e|]]; injection H as <- <-; by repeat constructor.
    + injection H as <- <-. constructor.
  - destruct (errorHandler bot); injection H as <- <-; constructor.
  - injection H as <- <-. by repeat constructor.
  - injection H as <- <-. constructor.
  - injection H as <- <-. constructor.
  - injection H as <- <-. constructor.
Qed.

Lemma settle_grows bot sched :
  ∀ pool w v pool' w', settle bot sched pool w = Some (v, pool', w') →
  grows task_call w w'.
Proof.
  induction sched as [|i sched IH]; intros pool w v pool' w' H; simpl in H.
  - destruct (verdict pool); [|discriminate]. injection H as <- <- <-.
    apply grows_refl.
  - destruct (verdict pool).
    + injection H as <- <- <-. apply grows_refl.
    + destruct (pool !! i) as [t|]; [|by eapply IH].
      destruct (task_step bot t) as [t' calls] eqn:Hstep.
      apply task_step_calls in Hstep. apply IH in H.
      eapply grows_trans; [|exact H]. by apply grows_emit_all.
Qed.




(** ** The shape of a request *)

Lemma initSessionStore_spec w :
  initialized (initSessionStore w) = true
  ∧ clock (initSessionStore w) = clock w
  ∧ trace (initSessionStore w)
    = trace w ++ (if initialized w then [] else [CInit]).
Proof.
  unfold initSessionStore, initSessionStore_enter.
  destruct (initialized w) eqn:Hi; simpl; [|done].
  by rewrite app_nil_r.
Qed.


Lemma prelude_of_grows bot body w w3 w4 :
  let events := mapRequestToEvents (connector bot) body in
  grows (resolution_call body (length events) events)
        (emit (CMapRequestToEvents body) (initSessionStore w)) w3 →
  grows plugin_call w3 w4 →
  prelude bot body w w4.
Proof.
  intros events Hres Hplg.
  apply (grows_weaken _ (λ c, resolution_call body (length events) events c
                              ∨ plugin_call c)) in Hres; [|by left].
  apply (grows_weaken _ (λ c, resolution_call body (length events) events c
                              ∨ plugin_call c)) in Hplg; [|by right].
  destruct (grows_trans _ _ _ _ Hres Hplg) as (Hi & Hc & cs & Ht & HP).
  destruct (initSessionStore_spec w) as (Hi0 & Hc0 & Ht0).
  simpl in Hi, Hc, Ht. repeat split; [congruence | congruence |].
  exists cs. split; [|exact HP].
  rewrite Ht, Ht0, <- !app_assoc. reflexivity.
Qed.

(** Every way a request can go. *)
Lemma requestHandler_cases bot sched inputBody rc w :
  let x := requestHandler bot sched inputBody rc w in
  let body := camelcaseKeysDeep bot inputBody in
  let events := mapRequestToEvents (connector bot) body in
  (truthy inputBody = false ∧ x = fail missing_argument w)
  ∨ (truthy inputBody = true
     ∧ ∃ e w4, x = fail e w4
               ∧ grows (prelude_call bot body) (initSessionStore w) w4)
  ∨ (truthy inputBody = true
     ∧ ∃ h cs w4,
         handler bot = Some h ∧ length cs = length events
         ∧ prelude bot body w w4
         ∧ x = if sync bot then respond_sync bot sched (map (start h) cs) w4
               else fire_and_forget_exit (map (start h) cs) w4).
Proof.
  intros x body events. subst x. unfold requestHandler.
  destruct (truthy inputBody) eqn:Hbody; simpl; [right | by left].
  fold body. fold events.
  set (w2 := emit (CMapRequestToEvents body) (initSessionStore w)).
  assert (Hmap : grows (prelude_call bot body) (initSessionStore w) w2).
  { apply grows_emit. by left. }
  destruct (resolve_all _ _ _ _ _ _) as [[e|cs] w3] eqn:Hres.
  { left. split; [done|]. exists e, w3. split; [done|].
    eapply grows_trans; [exact Hmap|].
    eapply grows_weaken; [|eapply resolve_all_grows; exact Hres].
    intros c Hc. right. by left. }
  pose proof (resolve_all_length _ _ _ _ _ _ _ _ Hres) as Hlen.
  pose proof (resolve_all_grows _ _ _ _ _ _ _ _ Hres) as Hgr.
  destruct (run_plugins _ _ _) as [[cs' w4] err] eqn:Hplg.
  pose proof (run_plugins_length _ _ _ _ _ _ Hplg) as Hlen'.
  pose proof (run_plugins_grows _ _ _ _ _ _ Hplg) as Hgp.
  assert (Hquiet : grows (prelude_call bot body) (initSessionStore w) w4).
  { eapply grows_trans; [exact Hmap|]. eapply grows_trans.
    - eapply grows_weaken; [|exact Hgr]. intros c Hc. right. by left.
    - eapply grows_weaken; [|exact Hgp]. intros c Hc. right. by right. }
  destruct err as [e|].
  { left. split; [done|]. by exists e, w4. }
  destruct (handler bot) as [h|] eqn:Hh.
  - right. split; [done|]. exists h, cs', w4.
    split; [done|]. split; [congruence|].
    split; [by apply (prelude_of_grows bot body w w3 w4) | by destruct (sync bot)].
  - left. split; [done|]. by exists missing_handler, w4.
Qed.

Lemma verdict_all_fulfilled pool :
  verdict pool = Some AllFulfilled → Forall (λ t, state t = TFulfilled) pool.
Proof.
  unfold verdict. destruct (find_rejection pool); [discriminate|].
  destruct (forallb fulfilled pool) eqn:Hall; [|discriminate]. intros _.
  induction pool as [|t rest IH]; [constructor|]. simpl in Hall.
  apply andb_prop in Hall as [Ht Hrest]. constructor; [|by apply IH].
  unfold fulfilled in Ht. by destruct (state t).
Qed.

Lemma verdict_first_rejected pool e :
  verdict pool = Some (FirstRejected e) → ∃ t, t ∈ pool ∧ state t = TRejected e.
Proof.
  unfold verdict. destruct (find_rejection pool) as [e'|] eqn:Hf.
  - intros [= ->]. induction pool as [|t rest IH]; simpl in Hf; [discriminate|].
    destruct (rejection t) as [e0|] eqn:Hr; simpl in Hf.
    + injection Hf as ->. exists t. split; [apply list_elem_of_here|].
      unfold rejection in Hr. destruct (state t); congruence.
    + destruct (IH Hf) as (t' & Hin & Hst). exists t'.
      split; [by apply list_elem_of_further | done].
  - destruct (forallb fulfilled pool); discriminate.
Qed.

Lemma settle_verdict bot sched :
  ∀ pool w v pool' w', settle bot sched pool w = Some (v, pool', w') →
  verdict pool' = Some v ∧ length pool' = length pool.
Proof.
  induction sched as [|i sched IH]; intros pool w v pool' w' H; simpl in H.
  - destruct (verdict pool) eqn:Hv; [|discriminate]. by injection H as <- <- <-.
  - destruct (verdict pool) eqn:Hv.
    + by injection H as <- <- <-.
    + destruct (pool !! i) as [t|]; [|by eapply IH].
      destruct (task_step bot t) as [t' calls].
      apply IH in H. by rewrite length_insert in H.
Qed.



(** The three ways the blocking branch can go. *)
Lemma respond_sync_cases bot sched pool w :
  let x := respond_sync bot sched pool w in
  (settle bot sched pool w = None
   ∧ x = {| reply := Pending; world := w; contexts := pool; deferred := false |})
  ∨ (∃ e pool1 w1,
       settle bot sched pool w = Some (FirstRejected e, pool1, w1)
       ∧ x = {| reply := first_response pool1; world := emit (CConsoleError e) w1;
                contexts := pool1; deferred := false |})
  ∨ (∃ pool1 w1 pool2 w2 err,
       settle bot sched pool w = Some (AllFulfilled, pool1, w1)
       ∧ persist_all bot pool1 w1 = (pool2, w2, err)
       ∧ x = {| reply := first_response pool2; world := console_error err w2;
                contexts := pool2; deferred := false |}).
Proof.
  intros x. subst x. unfold respond_sync, first_response, after_tasks.
  destruct (settle bot sched pool w) as [[[[|e] pool1] w1]|]; [| |by left].
  - right. right.
    destruct (persist_all bot pool1 w1) as [[pool2 w2] err] eqn:Hp.
    exists pool1, w1, pool2, w2, err. split; [done|]. split; [done|].
    by destruct (pool2 !! 0).
  - right. left. exists e, pool1, w1. split; [done|].
    by destruct (pool1 !! 0).
Qed.

(** ** Dialog chaining on the demo bot *)



(** ** Admission *)

(** Without [onEvent] the factory throws; with it, it hands out the
    request handler. *)
Lemma createRequestHandler_needs_handler camelcase conn store sync_mode h :
  createRequestHandler (new_bot camelcase conn store sync_mode) = inl missing_handler
  ∧ createRequestHandler (onEvent h (new_bot camelcase conn store sync_mode))
    = inr (requestHandler (onEvent h (new_bot camelcase conn store sync_mode))).
Proof. split; reflexivity. Qed.

(** The empty object [{}] is an empty body, yet the guard [!inputBody] lets
    it through: the latch is taken and the connector is asked for events. *)
Lemma empty_object_body_is_processed :
  let x := requestHandler (Demo.bot false Demo.echo) [] (JObj []) None Demo.fresh in
  reply x = Returned JUndefined
  ∧ trace (world x) = [CInit; CMapRequestToEvents (JObj [])]
  ∧ ¬ fails_untouched (Demo.bot false Demo.echo) [] (JObj []) None Demo.fresh.
Proof.
  split; [reflexivity|]. split; [reflexivity|].
  intros [_ Htrace]. discriminate Htrace.
Qed.

(** C7 (amended). A body that is absent or otherwise falsy ([null],
    [undefined], the empty string, [0], [false]) makes the request handler
    reject with the missing-argument error before anything else happens:
    no session-store call (not even [init]) and no connector call is made,
    and the latch is left as it was. *)
Theorem falsy_body_rejected (bot : Bot) (sched : list nat) (b : Body)
    (rc : option RequestContext) (w : World) :
  truthy b = false →
  let x := requestHandler bot sched b rc w in
  reply x = Rejected missing_argument ∧ world x = w
  ∧ fails_untouched bot sched b rc w.
Proof.
  intros Hb. unfold fails_untouched, requestHandler. rewrite Hb. simpl.
  repeat split. by exists missing_argument.
Qed.

Lemma falsy_body_rejected_witness :
  truthy JNull = false
  ∧ reply (requestHandler (Demo.bot true Demo.echo) [] JNull None Demo.fresh)
    = Rejected missing_argument.
Proof.
  split; [reflexivity|].
  exact (proj1 (falsy_body_rejected (Demo.bot true Demo.echo) [] JNull None
                  Demo.fresh eq_refl)).
Defined.

(** C10. In blocking mode, a truthy body that the connector maps to no
    event leaves [contexts] empty; reading [contexts[0].response] then
    throws, so the request rejects with a [TypeError] instead of returning
    nothing, whatever the scheduler does. *)
Theorem no_event_blocking_rejects (bot : Bot)
    (rh : list nat → Body → option RequestContext → World → Exit)
    (sched : list nat) (b : Body) (rc : option RequestContext) (w : World) :
  createRequestHandler bot = inr rh →
  sync bot = true →
  truthy b = true →
  mapRequestToEvents (connector bot) (camelcaseKeysDeep bot b) = [] →
  reply (rh sched b rc w) = Rejected undefined_response
  ∧ contexts (rh sched b rc w) = [].
Proof.
  unfold createRequestHandler. intros Hrh Hsync Hb Hev.
  destruct (handler bot) as [h|] eqn:Hh; [|discriminate].
  injection Hrh as <-. unfold requestHandler.
  rewrite Hb, Hev, Hh, Hsync. simpl. unfold respond_sync.
  destruct sched; simpl; done.
Qed.

Lemma no_event_blocking_rejects_witness :
  reply (requestHandler (Demo.bot true Demo.echo) [0; 1] (JObj []) None Demo.fresh)
  = Rejected undefined_response.
Proof.
  exact (proj1 (no_event_blocking_rejects (Demo.bot true Demo.echo) _ [0; 1]
                  (JObj []) None Demo.fresh eq_refl eq_refl eq_refl eq_refl)).
Defined.

(** ** Response modes *)




(** ** Failure of one context *)







(** With an error handler registered the failure is recovered: every task
    fulfils, the error handler receives the error as a prop, and both
    sessions are written. *)
Example recovered_failure_persists :
  let x := requestHandler (onError Demo.apologize (Demo.bot true Demo.echo))
             [0; 0; 1; 1; 1] Demo.two_messages None Demo.fresh in
  map state (contexts x) = [TFulfilled; TFulfilled]
  ∧ map (λ t, response (ctx t)) (contexts x) = [JStr "hello"; JStr "sorry"]
  ∧ map (λ t, isSessionWritten (ctx t)) (contexts x) = [true; true]
  ∧ reply x = Returned (JStr "hello")
  ∧ count_calls is_write (trace (world x)) = 2
  ∧ CInvoke Demo.apologize [("error", JStr "bang")] ∈ trace (world x).
Proof.
  repeat (split; [reflexivity|]). vm_compute.
  do 12 apply list_elem_of_further. apply list_elem_of_here.
Qed.

(** ** Fire-and-forget mode *)





(** The deferred continuation does persist once the tasks have run. *)
Example fire_and_forget_persists_later :
  let x := requestHandler (Demo.bot false Demo.echo) [] Demo.one_message None
             Demo.fresh in
  existsb is_write (trace (world x)) = false
  ∧ (background (Demo.bot false Demo.echo) [0] x = None)
  ∧ ∃ pool w', background (Demo.bot false Demo.echo) [0; 0] x = Some (pool, w')
               ∧ existsb is_write (trace w') = true
               ∧ map state pool = [TFulfilled].
Proof.
  split; [reflexivity|]. split; [reflexivity|]. vm_compute. eauto.
Qed.

(** ** The whole trace of a request *)




(** ** Fixed fields of a session *)

Lemma same_value_sound : ∀ a b, same_value a b = true → a = b.
Proof.
  fix IH 1.
  intros [| |x|x|x|xs] [| |y|y|y|ys]; simpl; try discriminate; try reflexivity.
  - intros H. apply Bool.eqb_prop in H. by subst.
  - intros H. apply Z.eqb_eq in H. by subst.
  - intros H. apply String.eqb_eq in H. by subst.
  - intros H. f_equal. revert ys H.
    induction xs as [|[k v] xs IHxs]; intros [|[k' v'] ys] H;
      try discriminate; try reflexivity.
    apply andb_prop in H as [H1 H3]. apply andb_prop in H1 as [H1 H2].
    apply String.eqb_eq in H1. apply IH in H2. apply IHxs in H3. by subst.
Qed.

Lemma locked_get o k v : locked o k v → get o k = v.
Proof. intros (p & Hp & Hv & _). unfold get. by rewrite Hp. Qed.

Lemma set_locked o k' v' o' k v :
  set o k' v' = Some o' → locked o k v → locked o' k v.
Proof.
  unfold set. intros Hset (p & Hp & Hv & Hw & Hc).
  destruct (decide (k' = k)) as [->|Hne].
  - rewrite Hp, Hw in Hset. discriminate.
  - exists p. destruct (props o !! k') as [q|].
    + destruct (writable q); [|discriminate]. injection Hset as <-. simpl.
      by rewrite lookup_insert_ne.
    + destruct (extensible o); [|discriminate]. injection Hset as <-. simpl.
      by rewrite lookup_insert_ne.
Qed.

Lemma delete_locked o k' o' k v :
  delete_prop o k' = Some o' → locked o k v → locked o' k v.
Proof.
  unfold delete_prop. intros Hdel (p & Hp & Hv & Hw & Hc).
  destruct (decide (k' = k)) as [->|Hne].
  - rewrite Hp, Hc in Hdel. discriminate.
  - exists p. destruct (props o !! k') as [q|].
    + destruct (configurable q); [|discriminate]. injection Hdel as <-. simpl.
      by rewrite lookup_delete_ne.
    + injection Hdel as <-. done.
Qed.

Lemma define_locked o k' d o' k v :
  define_property o k' d = Some o' → locked o k v → locked o' k v.
Proof.
  unfold define_property. intros Hdef (p & Hp & Hv & Hw & Hc).
  destruct (decide (k' = k)) as [->|Hne].
  - rewrite Hp in Hdef. destruct (define_allowed p d) eqn:Hok; [|discriminate].
    injection Hdef as <-. unfold define_allowed in Hok. rewrite Hc, Hw in Hok.
    apply andb_prop in Hok as [Hok Hval]. apply andb_prop in Hok as [Hconf _].
    apply andb_prop in Hval as [Hwr Hval].
    exists (apply_descriptor p d). simpl. rewrite lookup_insert_eq.
    split; [done|]. unfold apply_descriptor. simpl. repeat split.
    + destruct (d_value d) as [v'|]; simpl; [|done].
      apply same_value_sound in Hval. congruence.
    + rewrite Hw. by destruct (d_writable d) as [[]|].
    + rewrite Hc. by destruct (d_configurable d) as [[]|].
  - exists p. destruct (props o !! k') as [q|].
    + destruct (define_allowed q d); [|discriminate]. injection Hdef as <-. simpl.
      by rewrite lookup_insert_ne.
    + destruct (extensible o); [|discriminate]. injection Hdef as <-. simpl.
      by rewrite lookup_insert_ne.
Qed.

(** Defining a field with the handler's descriptor locks it. *)
Lemma define_fixed_locks o k v o' :
  define_property o k (fixed_descriptor v) = Some o' → locked o' k v.
Proof.
  unfold define_property. intros Hdef.
  destruct (props o !! k) as [p|].
  - destruct (define_allowed _ _); [|discriminate]. injection Hdef as <-.
    eexists. simpl. rewrite lookup_insert_eq. by repeat split.
  - destruct (extensible o); [|discriminate]. injection Hdef as <-.
    eexists. simpl. rewrite lookup_insert_eq. by repeat split.
Qed.

Lemma define_other_get o k d o' k' :
  define_property o k d = Some o' → k ≠ k' → get o' k' = get o k'.
Proof.
  unfold define_property, get. intros Hdef Hne.
  destruct (props o !! k) as [p|].
  - destruct (define_allowed _ _); [|discriminate]. injection Hdef as <-. simpl.
    by rewrite lookup_insert_ne.
  - destruct (extensible o); [|discriminate]. injection Hdef as <-. simpl.
    by rewrite lookup_insert_ne.
Qed.

Lemma set_get o k v o' : set o k v = Some o' → get o' k = v.
Proof.
  unfold set, get. intros Hset. destruct (props o !! k) as [p|].
  - destruct (writable p); [|discriminate]. injection Hset as <-. simpl.
    by rewrite lookup_insert_eq.
  - destruct (extensible o); [|discriminate]. injection Hset as <-. simpl.
    by rewrite lookup_insert_eq.
Qed.

(** What lines 216-230 leave behind: [id] locked at [session.id ||
    sessionId], [platform] locked at [session.platform || platform]. *)
Lemma fix_session_locks pf sid s0 s3 :
  fix_session pf sid s0 = inr s3 →
  locked s3 "id" (or_else (get s0 "id") (JStr sid))
  ∧ locked s3 "platform" (or_else (get s0 "platform") (JStr pf)).
Proof.
  unfold fix_session, fix_id, fix_platform. intros Hfix.
  destruct (define_property s0 "id" _) as [s1|] eqn:H1; [|discriminate].
  pose proof (define_fixed_locks _ _ _ _ H1) as Hid.
  pose proof (define_other_get _ _ _ _ "platform" H1 ltac:(done)) as Hpf.
  destruct (truthy (get s1 "platform")) eqn:Ht.
  - destruct (define_property s1 "platform" _) as [s3'|] eqn:H3; [|discriminate].
    injection Hfix as <-. split.
    + eapply define_locked; eauto.
    + apply define_fixed_locks in H3. unfold or_else.
      rewrite <- Hpf, Ht. done.
  - destruct (set s1 "platform" (JStr pf)) as [s2|] eqn:H2; [|discriminate].
    destruct (define_property s2 "platform" _) as [s3'|] eqn:H3; [|discriminate].
    injection Hfix as <-. split.
    + eapply define_locked; [exact H3|]. eapply set_locked; eauto.
    + apply define_fixed_locks in H3. rewrite (set_get _ _ _ _ H2) in H3.
      unfold or_else. rewrite <- Hpf, Ht. done.
Qed.

(** ** Session resolution *)

Lemma create_null_plain : plain_object create_null.
Proof. split; [done|]. intros k p H. simpl in H. by rewrite lookup_empty in H. Qed.

Lemma define_configurable_succeeds o k d :
  (∀ p, props o !! k = Some p → configurable p = true) →
  (props o !! k = None → extensible o = true) →
  ∃ o', define_property o k d = Some o'.
Proof.
  intros Hconf Hext. unfold define_property.
  destruct (props o !! k) as [p|].
  - unfold define_allowed. rewrite (Hconf p eq_refl). eauto.
  - rewrite (Hext eq_refl). eauto.
Qed.

Lemma fix_platform_plain pf s1 :
  extensible s1 = true →
  (∀ p, props s1 !! "platform" = Some p →
        writable p = true ∧ configurable p = true) →
  ∃ s3, fix_platform pf s1 = inr s3.
Proof.
  intros Hext Hplain. unfold fix_platform.
  destruct (truthy (get s1 "platform")).
  - destruct (define_configurable_succeeds s1 "platform"
                (fixed_descriptor (get s1 "platform"))) as [s3 ->]; eauto.
    intros p Hp. by apply Hplain.
  - destruct (set s1 "platform" (JStr pf)) as [s2|] eqn:Hset.
    + destruct (define_configurable_succeeds s2 "platform"
                  (fixed_descriptor (get s2 "platform"))) as [s3 ->]; eauto.
      * intros p Hp. unfold set in Hset.
        destruct (props s1 !! "platform") as [q|] eqn:Hq.
        -- destruct (Hplain q eq_refl) as [Hw Hc]. rewrite Hw in Hset.
           injection Hset as <-. simpl in Hp. rewrite lookup_insert_eq in Hp.
           by injection Hp as <-.
        -- rewrite Hext in Hset. injection Hset as <-. simpl in Hp.
           rewrite lookup_insert_eq in Hp. by injection Hp as <-.
      * intros Hnone. unfold set in Hset.
        destruct (props s1 !! "platform") as [q|].
        -- destruct (writable q); [|discriminate]. by injection Hset as <-.
        -- destruct (extensible s1); [|discriminate]. by injection Hset as <-.
    + unfold set in Hset. destruct (props s1 !! "platform") as [q|] eqn:Hq.
      * destruct (Hplain q eq_refl) as [Hw _]. rewrite Hw in Hset. discriminate.
      * rewrite Hext in Hset. discriminate.
Qed.

Lemma fix_session_plain pf sid s0 :
  plain_object s0 → ∃ s3, fix_session pf sid s0 = inr s3.
Proof.
  intros [Hext Hplain]. unfold fix_session, fix_id.
  destruct (define_configurable_succeeds s0 "id"
              (fixed_descriptor (or_else (get s0 "id") (JStr sid)))) as [s1 Hs1];
    [intros p Hp; by apply (Hplain _ _ Hp) | done |].
  rewrite Hs1. apply fix_platform_plain.
  - unfold define_property in Hs1. destruct (props s0 !! "id") as [p|].
    + destruct (define_allowed _ _); [|discriminate]. by injection Hs1 as <-.
    + destruct (extensible s0); [|discriminate]. by injection Hs1 as <-.
  - intros p Hp. apply (Hplain "platform").
    unfold define_property in Hs1. destruct (props s0 !! "id") as [q|].
    + destruct (define_allowed _ _); [|discriminate]. injection Hs1 as <-.
      simpl in Hp. by rewrite lookup_insert_ne in Hp.
    + destruct (extensible s0); [|discriminate]. injection Hs1 as <-.
      simpl in Hp. by rewrite lookup_insert_ne in Hp.
Qed.

(** C5. For an event with a usable session key, the session id is the
    connector's platform, a colon and the key; the store is read at that
    id and an absent record is replaced by an empty one; the session handed
    to [updateSession] has [id] set to the composed id when the record had
    none, and [platform] set to the connector's platform when the record
    had none (a value already present is kept). *)
Theorem session_resolution_defaults (bot : Bot) (body : Body)
    (rc : option RequestContext) (n : nat) (ev : Event) (w : World) (key : string) :
  let conn := connector bot in
  let payload := payload_for body n ev in
  usable_key (getUniqueSessionKey conn payload rc) = Some key →
  let sid := compose_session_id (platform conn) key in
  let s0 := default create_null (read (sessions bot) sid) in
  sid = String.append (platform conn) (String.append ":" key)
  ∧ (read (sessions bot) sid = None →
     s0 = create_null
     ∧ ∃ s3, fix_session (platform conn) sid s0 = inr s3
             ∧ get s3 "id" = JStr sid ∧ get s3 "platform" = JStr (platform conn))
  ∧ (plain_object s0 → ∃ s3, fix_session (platform conn) sid s0 = inr s3)
  ∧ ∀ s3, fix_session (platform conn) sid s0 = inr s3 →
      (get s0 "id" = JUndefined → get s3 "id" = JStr sid)
      ∧ (get s0 "platform" = JUndefined → get s3 "platform" = JStr (platform conn))
      ∧ (truthy (get s0 "id") = true → get s3 "id" = get s0 "id")
      ∧ (truthy (get s0 "platform") = true → get s3 "platform" = get s0 "platform")
      ∧ ∃ r w' rest,
          resolve_event bot body rc n ev w = (r, w')
          ∧ trace w' = trace w ++ [CGetUniqueSessionKey payload rc; CRead sid;
                                   CUpdateSession s3 payload] ++ rest.
Proof.
  intros conn payload Hkey sid s0.
  split; [reflexivity|]. split.
  { unfold s0. intros ->. simpl. split; [done|].
    destruct (fix_session_plain (platform conn) sid create_null create_null_plain)
      as [s3 Hfix].
    exists s3. split; [done|].
    destruct (fix_session_locks _ _ _ _ Hfix) as [Hid Hpf].
    by apply locked_get in Hid, Hpf. }
  split; [apply fix_session_plain|].
  intros s3 Hfix. destruct (fix_session_locks _ _ _ _ Hfix) as [Hid Hpf].
  apply locked_get in Hid, Hpf. unfold or_else in Hid, Hpf.
  split; [by intros Hu; rewrite Hu in Hid|].
  split; [by intros Hu; rewrite Hu in Hpf|].
  split; [by intros Ht; rewrite Ht in Hid|].
  split; [by intros Ht; rewrite Ht in Hpf|].
  unfold resolve_event. fold conn payload. rewrite Hkey.
  unfold resolve_session. fold conn sid s0. rewrite Hfix.
  destruct (apply_update _ _) as [s4 [e|]]; eexists _, _, _; (split; [reflexivity|]);
    simpl; rewrite <- ?app_assoc; simpl; try reflexivity.
Qed.

Lemma session_resolution_defaults_witness :
  usable_key (getUniqueSessionKey Demo.conn
                (payload_for Demo.one_message 1 (mkEvent (JStr "hello"))) None)
  = Some "hello"
  ∧ compose_session_id "demo" "hello" = "demo:hello"
  ∧ ∃ s3, fix_session "demo" "demo:hello" create_null = inr s3
          ∧ get s3 "id" = JStr "demo:hello" ∧ get s3 "platform" = JStr "demo".
Proof.
  split; [reflexivity|]. split; [reflexivity|].
  destruct (session_resolution_defaults (Demo.bot true Demo.echo) Demo.one_message
              None 1 (mkEvent (JStr "hello")) Demo.fresh "hello" eq_refl)
    as (_ & Hfresh & _).
  destruct (Hfresh eq_refl) as (_ & s3 & Hs3 & Hid & Hpf).
  by exists s3.
Defined.

(** ** The fixed fields stay fixed *)

Lemma pinned_reads c i p :
  pinned c i p → ∃ s, session c = Some s ∧ get s "id" = i ∧ get s "platform" = p.
Proof.
  intros (s & Hs & Hi & Hp). exists s. by split; [|split; apply locked_get].
Qed.

Lemma obj_step_locked strict_mode op o k v :
  locked o k v → locked (obj_step strict_mode op o).1 k v.
Proof.
  intros Hl. destruct op as [k' v'|k' d|k']; simpl.
  - destruct (set o k' v') eqn:H; simpl; [by eapply set_locked | done].
  - destruct (define_property o k' d) eqn:H; simpl; [by eapply define_locked | done].
  - destruct (delete_prop o k') eqn:H; simpl; [by eapply delete_locked | done].
Qed.

Lemma obj_run_locked strict_mode ops :
  ∀ o k v, locked o k v → locked (obj_run strict_mode ops o).1 k v.
Proof.
  induction ops as [|op rest IH]; intros o k v Hl; simpl; [done|].
  pose proof (obj_step_locked strict_mode op o k v Hl) as Hstep.
  destruct (obj_step strict_mode op o) as [o' [e|]]; simpl in *; [done | by apply IH].
Qed.

Lemma apply_update_locked u o k v :
  locked o k v → locked (apply_update u o).1 k v.
Proof.
  intros Hl. unfold apply_update.
  pose proof (obj_run_locked (u_strict u) (u_ops u) o k v Hl) as Hrun.
  by destruct (obj_run _ _ _) as [o' [e|]].
Qed.

Lemma mutate_pinned strict_mode m c i p :
  pinned c i p → pinned (mutate strict_mode m c).1 i p.
Proof.
  intros (s & Hs & Hi & Hp). destruct m as [op|v]; simpl.
  - rewrite Hs.
    pose proof (obj_step_locked strict_mode op s _ _ Hi) as Hi'.
    pose proof (obj_step_locked strict_mode op s _ _ Hp) as Hp'.
    destruct (obj_step strict_mode op s) as [s' err]. simpl in *.
    by exists s'.
  - by exists s.
Qed.

Lemma mutate_all_pinned strict_mode ms :
  ∀ c i p, pinned c i p → pinned (mutate_all strict_mode ms c).1 i p.
Proof.
  induction ms as [|m rest IH]; intros c i p Hc; simpl; [done|].
  pose proof (mutate_pinned strict_mode m c i p Hc) as Hstep.
  destruct (mutate strict_mode m c) as [c' [e|]]; simpl in *; [done | by apply IH].
Qed.

Lemma perform_pinned e c i p : pinned c i p → pinned (perform e c).1 i p.
Proof.
  intros Hc. unfold perform.
  pose proof (mutate_all_pinned (strict e) (script e) c i p Hc) as H.
  by destruct (mutate_all _ _ _) as [c' [err|]].
Qed.

Lemma invoke_pinned a c props i p : pinned c i p → pinned (invoke a c props).1 i p.
Proof.
  intros Hc. unfold invoke. destruct (action_body a c props) as [eff next].
  pose proof (perform_pinned eff c i p Hc) as H.
  by destruct (perform eff c) as [c' [err|]].
Qed.

Lemma task_step_pinned bot t i p :
  pinned (ctx t) i p → pinned (ctx (task_step bot t).1) i p.
Proof.
  intros Hc. unfold task_step. destruct (state t) as [ph a pr| |e|e|e| |e]; simpl;
    try done.
  - pose proof (invoke_pinned a (ctx t) pr i p Hc) as H.
    by destruct (invoke a (ctx t) pr) as [c' [[next|]|e]].
  - destruct (hasEndHook (ctx t)); [|done].
    pose proof (perform_pinned (handlerDidEnd (connector bot) (ctx t)) _ i p Hc) as H.
    by destruct (perform _ _) as [c' [e|]].
  - by destruct (errorHandler bot).
Qed.

Lemma settle_pinned bot sched i p :
  ∀ pool w v pool' w', settle bot sched pool w = Some (v, pool', w') →
  ∀ k t, pool !! k = Some t → pinned (ctx t) i p →
  ∃ t', pool' !! k = Some t' ∧ pinned (ctx t') i p.
Proof.
  induction sched as [|j sched IH]; intros pool w v pool' w' H k t Hk Hc; simpl in H.
  - destruct (verdict pool); [|discriminate]. injection H as <- <- <-. eauto.
  - destruct (verdict pool); [injection H as <- <- <-; eauto|].
    destruct (pool !! j) as [tj|] eqn:Hj; [|by eapply IH].
    pose proof (task_step_pinned bot tj i p) as Hstep.
    destruct (task_step bot tj) as [tj' calls]. simpl in Hstep.
    destruct (decide (j = k)) as [->|Hne].
    + eapply (IH _ _ _ _ _ H k tj').
      * apply list_lookup_insert_eq. by eapply lookup_lt_Some.
      * apply Hstep. congruence.
    + eapply (IH _ _ _ _ _ H k t); [|done]. by rewrite list_lookup_insert_ne.
Qed.

Lemma persist_one_pinned bot t w i p :
  pinned (ctx t) i p → pinned (ctx (persist_one bot t w).1.1) i p.
Proof.
  intros (s & Hs & Hi & Hp). unfold persist_one. simpl. rewrite Hs.
  destruct (set s "lastActivity" _) as [s'|] eqn:Hset; simpl.
  - exists s'. split; [done|]. split; by eapply set_locked.
  - by exists s.
Qed.

Lemma persist_all_pinned bot i p :
  ∀ pool w pool' w' err, persist_all bot pool w = (pool', w', err) →
  ∀ k t, pool !! k = Some t → pinned (ctx t) i p →
  ∃ t', pool' !! k = Some t' ∧ pinned (ctx t') i p.
Proof.
  induction pool as [|t0 rest IH]; intros w pool' w' err H k t Hk Hc; simpl in H.
  - by rewrite lookup_nil in Hk.
  - pose proof (persist_one_pinned bot t0 w i p) as Hone.
    destruct (persist_one bot t0 w) as [[t1 w1] err1].
    destruct (persist_all bot rest w1) as [[r2 w2] err2] eqn:Hrest.
    injection H as <- <- <-. destruct k as [|k]; simpl in *.
    + injection Hk as <-. eauto.
    + eapply IH; eauto.
Qed.

Lemma apply_plugins_pinned exts i p :
  ∀ c w, pinned c i p → pinned (apply_plugins exts c w).1.1 i p.
Proof.
  induction exts as [|ext rest IH]; intros c w Hc; simpl; [done|].
  pose proof (perform_pinned (ext c) c i p Hc) as H.
  destruct (perform (ext c) c) as [c1 err1]. simpl in H.
  specialize (IH c1 (emit (CPlugin c) w) H).
  by destruct (apply_plugins rest c1 _) as [[c2 w2] err2].
Qed.

Lemma run_plugins_pinned exts i p :
  ∀ cs w k c, cs !! k = Some c → pinned c i p →
  ∃ c', (run_plugins exts cs w).1.1 !! k = Some c' ∧ pinned c' i p.
Proof.
  induction cs as [|c0 rest IH]; intros w k c Hk Hc; simpl.
  - by rewrite lookup_nil in Hk.
  - pose proof (apply_plugins_pinned exts i p c0 w) as Hone.
    destruct (apply_plugins exts c0 w) as [[c1 w1] err1].
    specialize (IH w1).
    destruct (run_plugins exts rest w1) as [[cs2 w2] err2]. simpl in *.
    destruct k as [|k]; simpl in *.
    + injection Hk as <-. eauto.
    + eapply IH; eauto.
Qed.

Lemma after_tasks_pinned bot v pool1 w1 pool2 w2 i p :
  after_tasks bot v pool1 w1 = (pool2, w2) →
  ∀ k t, pool1 !! k = Some t → pinned (ctx t) i p →
  ∃ t', pool2 !! k = Some t' ∧ pinned (ctx t') i p.
Proof.
  intros Hafter k t Hk Hc. destruct v as [|e]; simpl in Hafter.
  - destruct (persist_all bot pool1 w1) as [[p2 w'] err] eqn:Hp.
    injection Hafter as <- <-. eapply persist_all_pinned; eauto.
  - injection Hafter as <- <-. eauto.
Qed.

(** C4. Once session resolution has fixed [id] and [platform], nothing
    that runs later changes them: the connector's [updateSession], the
    plugins, every turn of the handler, error-handler and
    [handlerDidEnd] tasks under any schedule, and the persistence step all
    leave a session whose [id] and [platform] read as they did right after
    resolution, whatever writes, redefinitions or deletes they attempt. *)
Theorem identity_fields_immutable (pf sid : string) (s0 s3 : Obj) :
  fix_session pf sid s0 = inr s3 →
  let i := get s3 "id" in
  let p := get s3 "platform" in
  (∀ u, get (apply_update u s3).1 "id" = i
        ∧ get (apply_update u s3).1 "platform" = p)
  ∧ (∀ u c, session c = Some (apply_update u s3).1 → pinned c i p)
  ∧ (∀ exts cs w k c,
       cs !! k = Some c → pinned c i p →
       ∃ c' s, (run_plugins exts cs w).1.1 !! k = Some c' ∧ pinned c' i p
               ∧ session c' = Some s ∧ get s "id" = i ∧ get s "platform" = p)
  ∧ (∀ bot sched pool w v pool1 w1 pool2 w2 k t,
       pool !! k = Some t → pinned (ctx t) i p →
       settle bot sched pool w = Some (v, pool1, w1) →
       after_tasks bot v pool1 w1 = (pool2, w2) →
       ∃ t1 t2 s1 s2,
         pool1 !! k = Some t1 ∧ session (ctx t1) = Some s1
         ∧ get s1 "id" = i ∧ get s1 "platform" = p
         ∧ pool2 !! k = Some t2 ∧ session (ctx t2) = Some s2
         ∧ get s2 "id" = i ∧ get s2 "platform" = p).
Proof.
  intros Hfix i p. destruct (fix_session_locks _ _ _ _ Hfix) as [Hid Hpf].
  assert (Hi : locked s3 "id" i) by (unfold i; by rewrite (locked_get _ _ _ Hid)).
  assert (Hp : locked s3 "platform" p)
    by (unfold p; by rewrite (locked_get _ _ _ Hpf)).
  clear Hid Hpf. split; [|split; [|split]].
  - intros u. split; apply locked_get; by apply apply_update_locked.
  - intros u c Hc. exists (apply_update u s3).1.
    split; [done|]. split; by apply apply_update_locked.
  - intros exts cs w k c Hk Hc.
    destruct (run_plugins_pinned exts i p cs w k c Hk Hc) as (c' & Hk' & Hc').
    destruct (pinned_reads _ _ _ Hc') as (s & Hs & Hgi & Hgp).
    by exists c', s.
  - intros bot sched pool w v pool1 w1 pool2 w2 k t Hk Hc Hset Hafter.
    destruct (settle_pinned _ _ _ _ _ _ _ _ _ Hset k t Hk Hc) as (t1 & Hk1 & Hc1).
    destruct (after_tasks_pinned _ _ _ _ _ _ _ _ Hafter k t1 Hk1 Hc1)
      as (t2 & Hk2 & Hc2).
    destruct (pinned_reads _ _ _ Hc1) as (s1 & Hs1 & Hi1 & Hp1).
    destruct (pinned_reads _ _ _ Hc2) as (s2 & Hs2 & Hi2 & Hp2).
    by exists t1, t2, s1, s2.
Qed.

Lemma identity_fields_immutable_witness :
  fix_session "demo" "demo:hello" create_null = inr fresh_session
  ∧ get (apply_update hostile_update fresh_session).1 "id" = JStr "demo:hello"
  ∧ get (apply_update hostile_update fresh_session).1 "platform" = JStr "demo".
Proof.
  split; [reflexivity|].
  exact (proj1 (identity_fields_immutable "demo" "demo:hello" create_null
                  fresh_session eq_refl) hostile_update).
Defined.

(** The refused redefinition is what stops the hostile update. *)
Example hostile_update_throws :
  (apply_update hostile_update fresh_session).2 = Some not_definable
  ∧ get (apply_update hostile_update fresh_session).1 "user" = JUndefined.
Proof. split; reflexivity. Qed.

(** ** The initialization latch *)



(** Run without interruption, a request's two stretches are
    [initSessionStore]. *)
Lemma latch_uninterrupted w :
  (Latch.step (Latch.step Latch.Arrived w).1 (Latch.step Latch.Arrived w).2).2
  = initSessionStore w.
Proof.
  unfold Latch.step, initSessionStore, initSessionStore_enter.
  by destruct (initialized w).
Qed.









(** * Further properties *)

(** ** The continuation engine on the error path *)


Lemma run_while_failing_sound fuel :
  ∀ a c acc r e,
    run_while fuel (Some a) c acc = Some r → run_settled r = RejectedWith e →
    ∃ log, run_log r = acc ++ log ∧ FailingChain a [] c log (run_context r) e.
Proof.
  induction fuel as [|fuel IH]; intros a c acc r e Hrun Hres; [discriminate|].
  simpl in Hrun. destruct (invoke a c []) as [c1 [[next|]|e']] eqn:Hinv.
  - destruct (IH next c1 _ r e Hrun Hres) as (log & Hlog & Hchain).
    exists (mkInvocation a [] c :: log). split.
    + by rewrite Hlog, <- app_assoc.
    + eapply failing_next; eauto.
  - destruct fuel; simpl in Hrun; injection Hrun as <-; discriminate.
  - injection Hrun as <-. simpl in Hres. injection Hres as ->.
    exists [mkInvocation a [] c]. split; [reflexivity | by apply failing_last].
Qed.

Lemma run_resolved_chain action fuel c p r :
  run action fuel c p = Some r → run_settled r = Resolved →
  Chain action p c (run_log r) (run_context r).
Proof.
  intros Hrun Hres. unfold run in Hrun.
  destruct (invoke action c p) as [c1 [[next|]|e]] eqn:Hinv.
  - destruct (run_while_sound _ _ _ _ _ Hrun Hres) as (log & Hlog & Hchain).
    rewrite Hlog. simpl. eapply chain_next; eauto.
  - destruct fuel; simpl in Hrun; injection Hrun as <-; by apply chain_last.
  - injection Hrun as <-. discriminate.
Qed.

Lemma run_rejected_chain action fuel c p r e :
  run action fuel c p = Some r → run_settled r = RejectedWith e →
  FailingChain action p c (run_log r) (run_context r) e.
Proof.
  intros Hrun Hres. unfold run in Hrun.
  destruct (invoke action c p) as [c1 [[next|]|e']] eqn:Hinv.
  - destruct (run_while_failing_sound _ _ _ _ _ _ Hrun Hres) as (log & Hlog & Hchain).
    rewrite Hlog. simpl. eapply failing_next; eauto.
  - destruct fuel; simpl in Hrun; injection Hrun as <-; discriminate.
  - injection Hrun as <-. simpl in Hres. injection Hres as ->.
    by apply failing_last.
Qed.


(** ** The dispatcher runs the handler as [run] does *)

Lemma advance_chain bot ph a p c log c' :
  Chain a p c log c' →
  advance bot (length log) (mkTask c (TRun ph a p))
  = (mkTask c' (on_void ph), map invocation_call log).
Proof.
  induction 1 as [a p c c' Hinv | a p c c1 next log c' Hinv Hrest IH]; simpl.
  - unfold task_step. simpl. by rewrite Hinv.
  - unfold task_step at 1. simpl. rewrite Hinv. by rewrite IH.
Qed.

Lemma advance_failing_chain bot ph a p c log c' e :
  FailingChain a p c log c' e →
  advance bot (length log) (mkTask c (TRun ph a p))
  = (mkTask c' (on_throw ph e), map invocation_call log).
Proof.
  induction 1 as [a p c c' e Hinv | a p c c1 next log c' e Hinv Hrest IH]; simpl.
  - unfold task_step. simpl. by rewrite Hinv.
  - unfold task_step at 1. simpl. rewrite Hinv. by rewrite IH.
Qed.

(** X2. The task the dispatcher creates for a context goes through the
    handler exactly as [run(handler)(context)] does: when [run] resolves,
    the task's turns make the logged invocations in the same order, with
    the same props, end on the same context and move on to
    [handlerDidEnd]; when [run] rejects with [e], they make the logged
    invocations and hand [e] to the first [.catch]. *)
Theorem task_follows_run (bot : Bot) (h : Action) (c : Context) (fuel : nat)
    (r : RunResult) :
  run h fuel c [] = Some r →
  advance bot (length (run_log r)) (start h c)
  = (mkTask (run_context r)
       match run_settled r with
       | Resolved => TEnd
       | RejectedWith e => TCatch e
       end,
     map invocation_call (run_log r)).
Proof.
  intros Hrun. destruct (run_settled r) as [|e] eqn:Hres.
  - exact (advance_chain bot Main h [] c _ _
             (run_resolved_chain _ _ _ _ _ Hrun Hres)).
  - exact (advance_failing_chain bot Main h [] c _ _ e
             (run_rejected_chain _ _ _ _ _ _ Hrun Hres)).
Qed.

(** ** What session resolution asks of the collaborators *)












(** ** The persistence step *)

Lemma stamped_is_stamped_write now t c : stamped now t = Some c → stamped_write now c.
Proof.
  unfold stamped. destruct (session (ctx t)) as [s|]; [|discriminate].
  destruct (set s "lastActivity" (JNum now)) as [s'|] eqn:Hset; [|discriminate].
  intros [= <-]. exists s'. split; [done|]. by eapply set_get.
Qed.

Lemma persist_one_effect bot t w t' w' err :
  persist_one bot t w = (t', w', err) →
  trace w' = trace w ++ option_list (stamped (clock w) t)
  ∧ clock w' = clock w
  ∧ isSessionWritten (ctx t') = true
  ∧ (session (ctx t') = None ↔ session (ctx t) = None)
  ∧ (err = None → session (ctx t) = None ∨ is_Some (stamped (clock w) t)).
Proof.
  unfold persist_one, stamped. simpl. intros H.
  destruct (session (ctx t)) as [s|] eqn:Hs.
  - destruct (set s "lastActivity" (JNum (clock w))) as [s'|];
      injection H as <- <- <-; simpl; rewrite ?app_nil_r, ?Hs;
      repeat split; try done; eauto.
  - injection H as <- <- <-. simpl. rewrite app_nil_r, Hs. repeat split; eauto.
Qed.

Lemma persist_all_effect bot pool :
  ∀ w pool' w' err,
    persist_all bot pool w = (pool', w', err) →
    trace w' = trace w ++ omap (stamped (clock w)) pool
    ∧ clock w' = clock w
    ∧ Forall (λ t, isSessionWritten (ctx t) = true) pool'
    ∧ (err = None →
       Forall (λ t, session (ctx t) = None ∨ is_Some (stamped (clock w) t)) pool).
Proof.
  induction pool as [|t rest IH]; intros w pool' w' err H; simpl in H.
  - injection H as <- <- <-. simpl. rewrite app_nil_r. repeat split; constructor.
  - destruct (persist_one bot t w) as [[t1 w1] err1] eqn:Hone.
    destruct (persist_all bot rest w1) as [[r2 w2] err2] eqn:Hrest.
    injection H as <- <- <-.
    destruct (persist_one_effect _ _ _ _ _ _ Hone) as (Ht1 & Hc1 & Hf1 & _ & He1).
    destruct (IH _ _ _ _ Hrest) as (Ht2 & Hc2 & Hf2 & He2).
    rewrite Hc1 in Ht2, Hc2, He2. split; [|split; [|split]].
    + rewrite Ht2, Ht1, <- app_assoc. f_equal. simpl.
      by destruct (stamped (clock w) t).
    + congruence.
    + by constructor.
    + intros Herr. destruct err1; [discriminate|]. simpl in Herr.
      constructor; auto.
Qed.


(** ** Blocking mode when every task fulfils *)

Lemma no_rejected_then_fulfilled pool e :
  verdict pool = Some (FirstRejected e) →
  ¬ Forall (λ t, state t = TFulfilled) pool.
Proof.
  intros Hv Hall. apply verdict_first_rejected in Hv as (t & Hin & Hst).
  rewrite Forall_forall in Hall. specialize (Hall t Hin). congruence.
Qed.

(** X7. In blocking mode, when the request resolves and every task has
    fulfilled, the work was done in this order: the calls before the
    handlers (latch, connector, store reads, plugins), then all handler
    activity, then the session writes, each under the session's own [id]
    and stamped with the current time, then at most one [console.error]
    for a failed write.  Every context is marked as written. *)
Theorem blocking_success_order (bot : Bot) (sched : list nat) (b : Body)
    (rc : option RequestContext) (w : World) (v : JSValue) :
  let x := requestHandler bot sched b rc w in
  sync bot = true →
  reply x = Returned v →
  Forall (λ t, state t = TFulfilled) (contexts x) →
  Forall (λ t, isSessionWritten (ctx t) = true) (contexts x)
  ∧ ∃ pre tsk wr lg,
      trace (world x) = trace w ++ pre ++ tsk ++ wr ++ lg
      ∧ Forall (λ c, ¬ task_call c ∧ ¬ write_call c ∧ ¬ console_call c) pre
      ∧ Forall task_call tsk
      ∧ Forall (stamped_write (clock w)) wr
      ∧ Forall console_call lg ∧ length lg ≤ 1.
Proof.
  intros x Hsync Hrep Hall.
  destruct (requestHandler_cases bot sched b rc w)
    as [[_ Hx] | [(_ & e0 & w4 & Hx & _) | (_ & h & cs & w4 & _ & _ & Hpre & Hx)]];
    fold x in Hx; [rewrite Hx in Hrep; discriminate Hrep
                  | rewrite Hx in Hrep; discriminate Hrep |].
  rewrite Hsync in Hx.
  destruct Hpre as (_ & Hclock & pre & Hpre & Hprecalls).
  destruct (respond_sync_cases bot sched (map (start h) cs) w4)
    as [[_ Hr] | [(e1 & p1 & w1 & Hset & Hr) | (p1 & w1 & p2 & w2 & err & Hset & Hp & Hr)]];
    rewrite Hr in Hx; rewrite Hx in *; simpl in *.
  - discriminate Hrep.
  - apply settle_verdict in Hset as [Hv _].
    by destruct (no_rejected_then_fulfilled _ _ Hv).
  - destruct (settle_grows _ _ _ _ _ _ _ Hset) as (_ & Hclock1 & tsk & Htsk & Htskcalls).
    destruct (persist_all_effect _ _ _ _ _ _ Hp) as (Hwr & _ & Hflag & _).
    split; [done|].
    exists ((if initialized w then [] else [CInit])
            ++ CMapRequestToEvents (camelcaseKeysDeep bot b) :: pre),
      tsk, (omap (stamped (clock w1)) p1), (option_list (CConsoleError <$> err)).
    split; [|split; [|split; [done|split; [|split]]]].
    + destruct err as [e|]; simpl; rewrite ?app_nil_r;
        rewrite Hwr, Htsk, Hpre, <- !app_assoc; simpl; by rewrite <- ?app_assoc.
    + apply Forall_app. split; [destruct (initialized w); repeat constructor; auto|].
      constructor; [simpl; tauto|].
      eapply Forall_impl; [exact Hprecalls|]. intros [] [Hc|Hc]; simpl in *; tauto.
    + rewrite <- Hclock, <- Hclock1. clear.
      induction p1 as [|t rest IH]; simpl; [constructor|].
      destruct (stamped (clock w1) t) eqn:Hst; [|done].
      constructor; [by eapply stamped_is_stamped_write | done].
    + destruct err; repeat constructor.
    + destruct err; simpl; lia.
Qed.

(** ** Invariants of the task pool *)

(** An invariant of pool and calls that every turn keeps holds when
    [Promise.all] settles. *)
Lemma settle_invariant bot (I : list Task → list Call → Prop) :
  (∀ pool cs i t,
      pool !! i = Some t → I pool cs →
      I (<[i := (task_step bot t).1]> pool) (cs ++ (task_step bot t).2)) →
  ∀ sched pool w v pool' w' cs0,
    settle bot sched pool w = Some (v, pool', w') → I pool cs0 →
    ∃ cs, trace w' = trace w ++ cs ∧ I pool' (cs0 ++ cs).
Proof.
  intros Hstep. induction sched as [|i sched IH];
    intros pool w v pool' w' cs0 H HI; simpl in H.
  - destruct (verdict pool); [|discriminate]. injection H as <- <- <-.
    exists []. by rewrite !app_nil_r.
  - destruct (verdict pool).
    { injection H as <- <- <-. exists []. by rewrite !app_nil_r. }
    destruct (pool !! i) as [t|] eqn:Hi; [|by eapply IH].
    specialize (Hstep pool cs0 i t Hi HI).
    destruct (task_step bot t) as [t' calls]. simpl in Hstep.
    destruct (IH _ _ _ _ _ _ H Hstep) as (cs & Ht & HI').
    exists (calls ++ cs). simpl in Ht. split.
    + by rewrite Ht, <- app_assoc.
    + by rewrite app_assoc.
Qed.

Lemma omap_insert {A B} (f : A → option B) (l : list A) i x y :
  l !! i = Some x →
  ∃ l1 l2, omap f l = l1 ++ option_list (f x) ++ l2
           ∧ omap f (<[i := y]> l) = l1 ++ option_list (f y) ++ l2.
Proof.
  revert i. induction l as [|a l IH]; intros i Hi; [by rewrite lookup_nil in Hi|].
  destruct i as [|i]; simpl in *.
  - injection Hi as ->. exists [], (omap f l). simpl.
    split; [by destruct (f x) | by destruct (f y)].
  - destruct (IH i Hi) as (l1 & l2 & H1 & H2). unfold omap in H1, H2.
    destruct (f a) as [b|].
    + exists (b :: l1), l2. simpl. by rewrite H1, H2.
    + exists l1, l2. by rewrite H1, H2.
Qed.

Lemma task_step_announces bot t :
  (announced (task_step bot t).1 = announced t
   ∧ omap emitted (task_step bot t).2 = [])
  ∨ (∃ e, announced t = None ∧ announced (task_step bot t).1 = Some e
          ∧ (task_step bot t).2 = [CEmitError e]).
Proof.
  unfold task_step, announced. destruct (state t) as [ph a p| |e|e|e| |e] eqn:Hst; simpl.
  - left. destruct (invoke a (ctx t) p) as [c' [[next|]|e]]; simpl;
      (split; [|done]); by destruct ph.
  - left. destruct (hasEndHook (ctx t)); [|by rewrite ?Hst].
    by destruct (perform _ _) as [c' [e|]].
  - left. by destruct (errorHandler bot).
  - right. by exists e.
  - by left.
  - left. by rewrite Hst.
  - left. by rewrite Hst.
Qed.

Lemma emit_invariant_step bot pool cs i t :
  pool !! i = Some t →
  omap emitted cs ≡ₚ omap announced pool →
  omap emitted (cs ++ (task_step bot t).2)
  ≡ₚ omap announced (<[i := (task_step bot t).1]> pool).
Proof.
  intros Hi HI.
  destruct (omap_insert announced pool i t (task_step bot t).1 Hi)
    as (l1 & l2 & H1 & H2).
  rewrite omap_app, H2. rewrite H1 in HI.
  destruct (task_step_announces bot t) as [[Ha He] | (e & Ha & Ha' & He)].
  - by rewrite He, app_nil_r, Ha.
  - rewrite He, Ha'. rewrite Ha in HI. simpl in *. rewrite HI.
    rewrite <- Permutation_cons_append. apply Permutation_middle.
Qed.

Lemma start_announces_nothing h cs : omap announced (map (start h) cs) = [].
Proof. induction cs as [|c cs IH]; simpl; done. Qed.

(** X8. While the tasks of a request run, [emitError] is called exactly
    once for each task that ends in failure, with the error that task
    rejects with, and never for any other task: the errors announced on the
    error bus are, up to order, the errors of the tasks that are past their
    last [.catch].  When [Promise.all] rejects with [e], [e] has been
    announced; when it fulfils, nothing was announced. *)
Theorem emitError_once_per_failed_task (bot : Bot) (h : Action) (sched : list nat)
    (cs0 : list Context) (w w' : World) (v : Verdict) (pool' : list Task) :
  settle bot sched (map (start h) cs0) w = Some (v, pool', w') →
  ∃ calls,
    trace w' = trace w ++ calls
    ∧ omap emitted calls ≡ₚ omap announced pool'
    ∧ (v = AllFulfilled → omap emitted calls = [])
    ∧ (∀ e, v = FirstRejected e → CEmitError e ∈ calls).
Proof.
  intros Hset.
  destruct (settle_invariant bot (λ pool cs, omap emitted cs ≡ₚ omap announced pool)
              (emit_invariant_step bot) _ _ _ _ _ _ [] Hset) as (calls & Ht & HI).
  { by rewrite start_announces_nothing. }
  simpl in HI. exists calls. split; [done|]. split; [done|].
  apply settle_verdict in Hset as [Hv _]. split.
  - intros ->. apply verdict_all_fulfilled in Hv.
    assert (Hnil : omap announced pool' = []).
    { clear -Hv. induction Hv as [|t rest Ht _ IH]; simpl; [done|].
      unfold announced at 1. by rewrite Ht. }
    rewrite Hnil in HI. by apply Permutation_nil_r in HI.
  - intros e ->. apply verdict_first_rejected in Hv as (t & Hin & Hst).
    assert (He : e ∈ omap announced pool').
    { apply list_elem_of_omap. exists t. split; [done|].
      unfold announced. by rewrite Hst. }
    rewrite <- HI in He. apply list_elem_of_omap in He as (c & Hc & Hem).
    destruct c; simpl in Hem; try discriminate. by injection Hem as ->.
Qed.










Lemma task_step_props bot t :
  props_ok_task bot t →
  props_ok_task bot (task_step bot t).1
  ∧ Forall (props_ok_call bot) (task_step bot t).2.
Proof.
  unfold props_ok_task, task_step.
  destruct (state t) as [ph a p| |e|e|e| |e] eqn:Hst; simpl; intros Hok.
  - assert (Hcall : Forall (props_ok_call bot) [CInvoke a p])
      by (constructor; [exact Hok | constructor]).
    destruct (invoke a (ctx t) p) as [c' [[next|]|e']]; simpl.
    + split; [by left | done].
    + split; [by destruct ph | done].
    + split; [by destruct ph | done].
  - destruct (hasEndHook (ctx t)); [|by rewrite ?Hst].
    destruct (perform _ _) as [c' [e'|]]; simpl;
      (split; [done | constructor; [exact I | constructor]]).
  - destruct (errorHandler bot) as [eh|] eqn:Heh; simpl; [|by split].
    split; [|constructor]. right. eauto.
  - split; [done|]. constructor; [exact I | constructor].
  - by split.
  - rewrite Hst. by split.
  - rewrite Hst. by split.
Qed.

Lemma props_invariant_step bot pool cs i t :
  pool !! i = Some t →
  Forall (props_ok_task bot) pool ∧ Forall (props_ok_call bot) cs →
  Forall (props_ok_task bot) (<[i := (task_step bot t).1]> pool)
  ∧ Forall (props_ok_call bot) (cs ++ (task_step bot t).2).
Proof.
  intros Hi [Hpool Hcs].
  assert (Ht : props_ok_task bot t).
  { rewrite Forall_forall in Hpool. apply Hpool. by eapply list_elem_of_lookup_2. }
  destruct (task_step_props bot t Ht) as [Ht' Hcalls]. split.
  - by apply Forall_insert.
  - by apply Forall_app.
Qed.

(** X11. The dispatcher never threads props into a dialog: every action it
    invokes for a request receives empty props, with one exception, the
    entry call of the registered error handler, which receives exactly
    [{ error }]. *)
Theorem dispatcher_passes_no_props (bot : Bot) (h : Action) (sched : list nat)
    (cs0 : list Context) (w w' : World) (v : Verdict) (pool' : list Task) :
  settle bot sched (map (start h) cs0) w = Some (v, pool', w') →
  ∃ calls,
    trace w' = trace w ++ calls
    ∧ ∀ a p, CInvoke a p ∈ calls →
        p = [] ∨ (errorHandler bot = Some a ∧ ∃ e, p = [("error", e)]).
Proof.
  intros Hset.
  destruct (settle_invariant bot
              (λ pool cs, Forall (props_ok_task bot) pool
                          ∧ Forall (props_ok_call bot) cs)
              (props_invariant_step bot) _ _ _ _ _ _ [] Hset)
    as (calls & Ht & _ & Hcalls).
  { split; [|constructor]. apply Forall_fmap, Forall_forall. intros c _. by left. }
  simpl in Hcalls. exists calls. split; [done|]. intros a p Hin.
  rewrite Forall_forall in Hcalls. exact (Hcalls _ Hin).
Qed.

(** ** Sessions are written under the id fixed at resolution *)

















(** ** Resolving an already resolved session *)

Lemma same_value_refl : ∀ a, same_value a a = true.
Proof.
  fix IH 1. intros [| |x|x|x|xs]; simpl; try reflexivity.
  - by destruct x.
  - apply Z.eqb_refl.
  - apply String.eqb_refl.
  - induction xs as [|[k v] xs IHxs]; [reflexivity|].
    by rewrite String.eqb_refl, IH, IHxs.
Qed.

Lemma define_fixed_exact o k v o' :
  define_property o k (fixed_descriptor v) = Some o' → fixed_at o' k v.
Proof.
  unfold define_property, fixed_at. intros Hdef.
  destruct (props o !! k) as [p|].
  - destruct (define_allowed _ _); [|discriminate]. injection Hdef as <-.
    simpl. by rewrite lookup_insert_eq.
  - destruct (extensible o); [|discriminate]. injection Hdef as <-.
    simpl. by rewrite lookup_insert_eq.
Qed.

Lemma define_other_lookup o k d o' k' :
  define_property o k d = Some o' → k ≠ k' → props o' !! k' = props o !! k'.
Proof.
  unfold define_property. intros Hdef Hne.
  destruct (props o !! k) as [p|].
  - destruct (define_allowed _ _); [|discriminate]. injection Hdef as <-. simpl.
    by rewrite lookup_insert_ne.
  - destruct (extensible o); [|discriminate]. injection Hdef as <-. simpl.
    by rewrite lookup_insert_ne.
Qed.

Lemma set_other_lookup o k v o' k' :
  set o k v = Some o' → k ≠ k' → props o' !! k' = props o !! k'.
Proof.
  unfold set. intros Hset Hne. destruct (props o !! k) as [p|].
  - destruct (writable p); [|discriminate]. injection Hset as <-. simpl.
    by rewrite lookup_insert_ne.
  - destruct (extensible o); [|discriminate]. injection Hset as <-. simpl.
    by rewrite lookup_insert_ne.
Qed.

Lemma fixed_at_get o k v : fixed_at o k v → get o k = v.
Proof. unfold fixed_at, get. by intros ->. Qed.

(** Defining a fixed field again with the value it has changes nothing. *)
Lemma redefine_fixed o k v :
  fixed_at o k v → define_property o k (fixed_descriptor v) = Some o.
Proof.
  unfold fixed_at, define_property. intros Hk. rewrite Hk.
  unfold define_allowed. simpl. rewrite same_value_refl. simpl.
  f_equal. destruct o as [ps ext]. simpl in *. f_equal.
  by apply insert_id.
Qed.

Lemma fix_session_fixes pf sid s0 s3 :
  fix_session pf sid s0 = inr s3 →
  fixed_at s3 "id" (or_else (get s0 "id") (JStr sid))
  ∧ fixed_at s3 "platform" (or_else (get s0 "platform") (JStr pf)).
Proof.
  unfold fix_session, fix_id, fix_platform. intros Hfix.
  destruct (define_property s0 "id" _) as [s1|] eqn:H1; [|discriminate].
  pose proof (define_fixed_exact _ _ _ _ H1) as Hid.
  pose proof (define_other_get _ _ _ _ "platform" H1 ltac:(done)) as Hpf.
  destruct (truthy (get s1 "platform")) eqn:Ht.
  - destruct (define_property s1 "platform" _) as [s3'|] eqn:H3; [|discriminate].
    injection Hfix as <-. split.
    + unfold fixed_at. by rewrite (define_other_lookup _ _ _ _ "id" H3).
    + apply define_fixed_exact in H3. unfold or_else. by rewrite <- Hpf, Ht.
  - destruct (set s1 "platform" (JStr pf)) as [s2|] eqn:H2; [|discriminate].
    destruct (define_property s2 "platform" _) as [s3'|] eqn:H3; [|discriminate].
    injection Hfix as <-. split.
    + unfold fixed_at. rewrite (define_other_lookup _ _ _ _ "id" H3) by done.
      by rewrite (set_other_lookup _ _ _ _ "id" H2).
    + apply define_fixed_exact in H3. rewrite (set_get _ _ _ _ H2) in H3.
      unfold or_else. by rewrite <- Hpf, Ht.
Qed.

Lemma or_else_truthy a b : truthy b = true → truthy (or_else a b) = true.
Proof. unfold or_else. by destruct (truthy a) eqn:Ha. Qed.

Lemma truthy_nonempty s : s ≠ "" → truthy (JStr s) = true.
Proof. intros Hs. simpl. by apply negb_true_iff, String.eqb_neq. Qed.

(** X12. Session resolution is idempotent on its own result: when a store
    hands back the very object an earlier request resolved (its [id] and
    [platform] already fixed), resolving it again, under any session id,
    succeeds and leaves the object exactly as it is, provided the composed
    session id and the connector's platform are non-empty strings. *)
Theorem fix_session_idempotent (pf sid sid' : string) (s0 s3 : Obj) :
  fix_session pf sid s0 = inr s3 →
  sid ≠ "" → pf ≠ "" →
  fix_session pf sid' s3 = inr s3.
Proof.
  intros Hfix Hsid Hpf. destruct (fix_session_fixes _ _ _ _ Hfix) as [Hid Hplat].
  set (i := or_else (get s0 "id") (JStr sid)) in *.
  set (p := or_else (get s0 "platform") (JStr pf)) in *.
  assert (Hti : truthy i = true) by (by apply or_else_truthy, truthy_nonempty).
  assert (Htp : truthy p = true) by (by apply or_else_truthy, truthy_nonempty).
  unfold fix_session, fix_id, fix_platform.
  rewrite (fixed_at_get _ _ _ Hid). unfold or_else at 1. rewrite Hti.
  rewrite (redefine_fixed _ _ _ Hid).
  rewrite (fixed_at_get _ _ _ Hplat), Htp. simpl.
  rewrite ?(fixed_at_get _ _ _ Hplat).
  by rewrite (redefine_fixed _ _ _ Hplat).
Qed.

(** ** Registration calls compose *)




(** ** The error fallback of one task *)

Lemma advance_app bot n m :
  ∀ t, advance bot (n + m) t
       = ((advance bot m (advance bot n t).1).1,
          (advance bot n t).2 ++ (advance bot m (advance bot n t).1).2).
Proof.
  induction n as [|n IH]; intros t; simpl.
  - by destruct (advance bot m t).
  - destruct (task_step bot t) as [t1 calls1]. rewrite IH.
    destruct (advance bot n t1) as [t2 calls2]. simpl.
    destruct (advance bot m t2) as [t3 calls3]. simpl. by rewrite app_assoc.
Qed.

Lemma task_step_catch bot c e :
  task_step bot (mkTask c (TCatch e))
  = (mkTask c match errorHandler bot with
              | Some eh => TRun Recover eh [("error", e)]
              | None => TEscalate e
              end, []).
Proof. unfold task_step. simpl. by destruct (errorHandler bot). Qed.

Lemma advance_escalate bot c e :
  advance bot 2 (mkTask c (TEscalate e)) = (mkTask c (TRejected e), [CEmitError e]).
Proof. reflexivity. Qed.

Lemma advance_catch_unhandled bot c e :
  errorHandler bot = None →
  advance bot 3 (mkTask c (TCatch e)) = (mkTask c (TRejected e), [CEmitError e]).
Proof.
  intros Hnone. change 3 with (1 + 2). rewrite advance_app.
  change (advance bot 1 (mkTask c (TCatch e)))
    with (let '(t1, calls1) := task_step bot (mkTask c (TCatch e)) in
          (t1, calls1 ++ [])).
  rewrite task_step_catch, Hnone. reflexivity.
Qed.

Lemma advance_catch_handled bot c e eh n :
  errorHandler bot = Some eh →
  advance bot (1 + n) (mkTask c (TCatch e))
  = advance bot n (mkTask c (TRun Recover eh [("error", e)])).
Proof.
  intros Heh. rewrite advance_app.
  change (advance bot 1 (mkTask c (TCatch e)))
    with (let '(t1, calls1) := task_step bot (mkTask c (TCatch e)) in
          (t1, calls1 ++ [])).
  rewrite task_step_catch, Heh. simpl. by destruct (advance bot n _).
Qed.

(** X14. What happens to a task whose handler chain throws [e].  Without
    error handler the error is announced with [emitError] and the task
    rejects with [e].  With an error handler, it is run on the context as
    the failed chain left it, with [{ error: e }] as props: if its chain
    completes, the task fulfils and nothing is announced; if its chain
    throws [e2], it is [e2] that is announced and that the task rejects
    with.  In none of these cases is [handlerDidEnd] called. *)
Theorem error_fallback (bot : Bot) (h : Action) (c c1 : Context)
    (log : list Invocation) (e : Error) :
  FailingChain h [] c log c1 e →
  (errorHandler bot = None →
   advance bot (length log + 3) (start h c)
   = (mkTask c1 (TRejected e), map invocation_call log ++ [CEmitError e]))
  ∧ (∀ eh log2 c2,
       errorHandler bot = Some eh →
       Chain eh [("error", e)] c1 log2 c2 →
       advance bot (length log + (1 + length log2)) (start h c)
       = (mkTask c2 TFulfilled,
          map invocation_call log ++ map invocation_call log2))
  ∧ (∀ eh log2 c2 e2,
       errorHandler bot = Some eh →
       FailingChain eh [("error", e)] c1 log2 c2 e2 →
       advance bot (length log + (1 + (length log2 + 2))) (start h c)
       = (mkTask c2 (TRejected e2),
          map invocation_call log ++ map invocation_call log2 ++ [CEmitError e2])).
Proof.
  intros Hfail.
  pose proof (advance_failing_chain bot Main h [] c log c1 e Hfail) as Hmain.
  simpl in Hmain. unfold start. split; [|split].
  - intros Hnone. rewrite advance_app, Hmain. cbn [fst snd].
    by rewrite (advance_catch_unhandled bot c1 e Hnone).
  - intros eh log2 c2 Heh Hchain. rewrite advance_app, Hmain. cbn [fst snd].
    rewrite (advance_catch_handled bot c1 e eh _ Heh).
    by rewrite (advance_chain bot Recover eh _ c1 log2 c2 Hchain).
  - intros eh log2 c2 e2 Heh Hchain. rewrite advance_app, Hmain. cbn [fst snd].
    rewrite (advance_catch_handled bot c1 e eh _ Heh), advance_app.
    rewrite (advance_failing_chain bot Recover eh _ c1 log2 c2 e2 Hchain).
    cbn [fst snd]. by rewrite advance_escalate.
Qed.

(** ** Plugins *)




(** ** The outcome does not depend on the schedule *)










(** ** The further properties on the demo bot *)


Lemma task_follows_run_witness :
  run Demo.greet 1 Demo.some_context [] = Some greet_run
  ∧ advance (Demo.bot true Demo.greet) 2 (start Demo.greet Demo.some_context)
    = (mkTask after_answer TEnd, [CInvoke Demo.greet []; CInvoke Demo.answer []]).
Proof.
  split; [reflexivity|].
  exact (task_follows_run (Demo.bot true Demo.greet) Demo.greet Demo.some_context 1
           greet_run eq_refl).
Defined.





Lemma blocking_success_order_witness :
  Forall (λ t, isSessionWritten (ctx t) = true)
    (contexts (requestHandler (Demo.bot true Demo.echo) [0; 0] Demo.one_message
                 None Demo.fresh)).
Proof.
  refine (proj1 (blocking_success_order (Demo.bot true Demo.echo) [0; 0]
                   Demo.one_message None Demo.fresh (JStr "hello")
                   eq_refl eq_refl _)).
  vm_compute. repeat constructor.
Defined.

Lemma emitError_once_per_failed_task_witness :
  boom_settled
  = Some (FirstRejected (JStr "bang"), pool_of boom_settled, world_of boom_settled)
  ∧ ∃ calls, trace (world_of boom_settled) = trace Demo.fresh ++ calls
             ∧ CEmitError (JStr "bang") ∈ calls.
Proof.
  split; [reflexivity|].
  destruct (emitError_once_per_failed_task (Demo.bot true Demo.echo) Demo.echo
              [0; 0; 0; 0] [boom_context] Demo.fresh (world_of boom_settled)
              (FirstRejected (JStr "bang")) (pool_of boom_settled) eq_refl)
    as (calls & Ht & _ & _ & Hin).
  exists calls. split; [exact Ht | exact (Hin _ eq_refl)].
Defined.



Lemma dispatcher_passes_no_props_witness :
  ∃ calls, trace (world_of boom_settled) = trace Demo.fresh ++ calls
           ∧ ∀ a p, CInvoke a p ∈ calls →
               p = [] ∨ (errorHandler (Demo.bot true Demo.echo) = Some a
                         ∧ ∃ e, p = [("error", e)]).
Proof.
  exact (dispatcher_passes_no_props (Demo.bot true Demo.echo) Demo.echo
           [0; 0; 0; 0] [boom_context] Demo.fresh (world_of boom_settled)
           (FirstRejected (JStr "bang")) (pool_of boom_settled) eq_refl).
Defined.

Lemma fix_session_idempotent_witness :
  fix_session "demo" "demo:hello" create_null = inr fresh_session
  ∧ fix_session "demo" "demo:again" fresh_session = inr fresh_session.
Proof.
  split; [reflexivity|].
  refine (fix_session_idempotent "demo" "demo:hello" "demo:again" create_null
            fresh_session eq_refl _ _); discriminate.
Defined.

Lemma error_fallback_witness :
  advance (Demo.bot true Demo.echo) 4 (start Demo.echo boom_context)
  = (mkTask boom_context (TRejected (JStr "bang")),
     [CInvoke Demo.echo []; CEmitError (JStr "bang")]).
Proof.
  exact (proj1 (error_fallback (Demo.bot true Demo.echo) Demo.echo boom_context
                  boom_context [mkInvocation Demo.echo [] boom_context] (JStr "bang")
                  (failing_last Demo.echo [] boom_context boom_context
                     (JStr "bang") eq_refl)) eq_refl).
Defined.


